(** * The integrator of ACT: session lifecycle of exchanges, streaming and
      the arbitrage loop

    A shallow embedding of [package integrator] (the Go source of the
    orchestrator) and the properties of its lifecycle methods.

    Go code is embedded as functions of a small state-and-panic monad.  The
    state holds the [Integrator] receiver, the trace of everything the
    method did to the outside (calls to the robot, the exchanges, the HTTP
    server, the log), the number of [range] statements over a map executed
    so far and the program counters of the goroutines launched with [go].
    What the collaborators answer is given by the [Environment]: a function
    of the whole history of the process, so that a collaborator may answer
    the same call differently at different times. *)

From Stdlib Require Import List String.
From stdpp Require Import base option list gmap strings.

Open Scope string_scope.
Open Scope list_scope.

(** ** Errors ([github.com/pkg/errors]) *)

Inductive error : Type :=
| errorString (msg : string)                  (* a leaf error of a collaborator *)
| withMessage (cause : error) (msg : string). (* errors.Wrap(cause, msg) *)

Definition Wrap (err : error) (message : string) : error :=
  withMessage err message.

(** [err.Error()], what [%v] prints for an error. *)
Fixpoint Error (e : error) : string :=
  match e with
  | errorString m => m
  | withMessage c m => m +:+ ": " +:+ Error c
  end.

(** ** The exchange package, as the integrator sees it *)

(** Modelled from the spec: the interfaces [exchange.Exchange] and
    [exchange.TradeContext] and the cursor belong to a package that is not
    part of these sources.  The integrator only uses the methods below.  A
    cursor is a restartable, finite sequence: it is walked with [Next()]
    until it reports [ok = false], and is given here as the contexts it
    yields on such a walk. *)

Class ExchangeAPI : Type := {
  Exchange : Type;
  TradeContext : Type;
  TradeID : Type;
  ExchangeConf : Type;   (* the interface{} value handed to a constructor *)
  GetName : Exchange -> string;
  GetTradeContextCursor : Exchange -> list TradeContext;
  GetID : TradeContext -> TradeID
}.

(** A field of the struct type [exchangesConfig], as [reflect] shows it:
    its name and the value of its [config] tag. *)
Record StructField : Type := {
  Name : string;
  Tag_config : string
}.

Section Integrator.

Context `{API : ExchangeAPI}.

(** ** Calls that leave the integrator *)

Inductive Call : Type :=
| NewNotifier
| NewRobot (configDir : string)
| CreateTradeAlgorithms (tradeID : TradeID) (tradeContext : TradeContext)
| UpdateTradeAlgorithms (tradeID : TradeID) (tradeContext : TradeContext)
| DestroyTradeAlgorithms (tradeID : TradeID) (tradeContext : TradeContext)
| CreateArbitrageTradeAlgorithms (exchanges : gmap string Exchange)
| UpdateArbitrageTradeAlgorithms (exchanges : gmap string Exchange)
| DestroyArbitrageTradeAlgorithms (exchanges : gmap string Exchange)
| StartStreaming (ex : Exchange) (tradeContext : TradeContext)
| StopStreaming (ex : Exchange) (tradeContext : TradeContext)
| ListenAndServe (addr : string).

Inductive Event : Type :=
| EvCall (c : Call) (r : option error)      (* a call and the error it returned *)
| EvNewExchange (name : string) (conf : ExchangeConf) (r : Exchange + error)
| EvInitialize (ex : Exchange)              (* ex.Initialize(i.streamingCallback, nil) *)
| EvBlockingClose (addr : string)           (* server.BlockingClose() *)
| EvLog (msg : string).                     (* log.Printf *)

(** A constructor registered by an exchange package: it sees the
    configuration value and the history, and returns [(ex, err)]. *)
Definition ExchangeNewFunc : Type :=
  ExchangeConf -> list Event -> Exchange + error.

End Integrator.

(** ** The environment

    [respond h c] is the error that call [c] returns after history [h].
    For [ListenAndServe] it is what the [select] of [initHttpServer]
    receives: [Some err] when the server goroutine delivers [err] on
    [startChan] before [time.After(time.Second)] fires, [None] otherwise.

    [mapOrder n m] is the order in which the [n]-th executed [range] over
    the map [m] visits its entries.  Go leaves that order unspecified, so
    it is any permutation of the entries.

    [GetRegisterdExchanges] is the registry of constructors of the
    exchange package, in the order [Initialize] ranges over it; a
    registered constructor may be [nil].  [exchangesConfigFields] are the
    fields of the struct type [exchangesConfig], declared in a file of the
    package that is not part of these sources. *)

Class Environment `{API : ExchangeAPI} : Type := {
  respond : list Event -> Call -> option error;
  mapOrder : nat -> gmap string Exchange -> list (string * Exchange);
  mapOrder_perm : forall n m, mapOrder n m ≡ₚ map_to_list m;
  GetRegisterdExchanges : list (string * option ExchangeNewFunc);
  exchangesConfigFields : list StructField
}.

Section Model.

Context `{Env : Environment}.

(** ** Configuration and the receiver *)

Record serverConfig : Type := {
  Debug : bool;
  AddrPort : string
}.

(** [Server] and [Exchanges] are pointers: [None] is the nil pointer.  A
    value of [exchangesConfig] maps the name of each field that is not nil
    to the configuration it points to.  The [Robot] and [Notifier]
    sub-documents are only handed to the constructors of those packages. *)
Record Config : Type := {
  Server : option serverConfig;
  Exchanges : option (gmap string ExchangeConf)
}.

(** The [*manners.GracefulServer] is represented by the address it was
    built for; [startChan] is read once, by the [select] of
    [initHttpServer]. *)
Record gracefulServerT : Type := {
  server_Addr : string
}.

(** A channel on which nothing is ever sent: it is open or closed. *)
Inductive chan : Type := chanOpen | chanClosed.

Record Integrator : Type := {
  config : Config;
  gracefulServer : option gracefulServerT;
  exchanges : gmap string Exchange;
  arbitrageLoopFinishChan : chan
}.

(** Where a goroutine running [ArbitrageLoop] stands: blocked in its
    [select], with the channel of [time.After] ready or not, or returned. *)
Inductive LoopPc : Type :=
| AtSelect (tick : bool)
| Returned.

Record State : Type := {
  this : Integrator;
  trace : list Event;
  ranges : nat;
  loops : list LoopPc
}.

Definition set_this (f : Integrator -> Integrator) (s : State) : State :=
  {| this := f (this s); trace := trace s; ranges := ranges s; loops := loops s |}.

Definition set_gracefulServer (g : option gracefulServerT) (i : Integrator) : Integrator :=
  {| config := config i; gracefulServer := g; exchanges := exchanges i;
     arbitrageLoopFinishChan := arbitrageLoopFinishChan i |}.

Definition set_exchanges (m : gmap string Exchange) (i : Integrator) : Integrator :=
  {| config := config i; gracefulServer := gracefulServer i; exchanges := m;
     arbitrageLoopFinishChan := arbitrageLoopFinishChan i |}.

Definition set_arbitrageLoopFinishChan (c : chan) (i : Integrator) : Integrator :=
  {| config := config i; gracefulServer := gracefulServer i; exchanges := exchanges i;
     arbitrageLoopFinishChan := c |}.

Definition add_events (evs : list Event) (s : State) : State :=
  {| this := this s; trace := trace s ++ evs; ranges := ranges s; loops := loops s |}.

Definition set_loops (l : list LoopPc) (s : State) : State :=
  {| this := this s; trace := trace s; ranges := ranges s; loops := l |}.

(** ** The monad: state, and the run-time panics of Go *)

Inductive PanicValue : Type :=
| NilDereference          (* invalid memory address or nil pointer dereference *)
| CloseOfClosedChannel.   (* close of closed channel *)

Inductive Result (A : Type) : Type :=
| Val (a : A) (s : State)
| Panic (p : PanicValue) (s : State).

Arguments Val {A} a s.
Arguments Panic {A} p s.

Definition M (A : Type) : Type := State -> Result A.

Definition ret {A} (a : A) : M A := fun s => Val a s.

Definition bind {A B} (m : M A) (k : A -> M B) : M B :=
  fun s => match m s with
           | Val a s' => k a s'
           | Panic p s' => Panic p s'
           end.

Definition panic {A} (p : PanicValue) : M A := fun s => Panic p s.

Notation "'let*' x ':=' m 'in' k" := (bind m (fun x => k))
  (at level 10, x name, m at level 100, k at level 200).
Notation "m ';;' k" := (bind m (fun _ => k))
  (at level 100, k at level 200, right associativity).

Definition getThis : M Integrator := fun s => Val (this s) s.

Definition modifyThis (f : Integrator -> Integrator) : M unit :=
  fun s => Val tt (set_this f s).

Definition emit (ev : Event) : M unit := fun s => Val tt (add_events [ev] s).

(** A call to a collaborator: the environment answers from the history,
    and the call is recorded with its answer. *)
Definition call (c : Call) : M (option error) :=
  fun s => let r := respond (trace s) c in Val r (add_events [EvCall c r] s).

Definition logPrintf (msg : string) : M unit := emit (EvLog msg).

(** [for _, ex := range i.exchanges]: the entries in the order this
    execution of the statement visits them. *)
Definition rangeExchanges : M (list (string * Exchange)) :=
  fun s => Val (mapOrder (ranges s) (exchanges (this s)))
               {| this := this s; trace := trace s; ranges := S (ranges s); loops := loops s |}.

(** [go i.ArbitrageLoop()]: a new goroutine, about to enter its first
    [select] with a timer that has not fired. *)
Definition goArbitrageLoop : M unit :=
  fun s => Val tt (set_loops (loops s ++ [AtSelect false]) s).

(** ** The methods of [Integrator] *)

(** [initHttpServer].  The gin engine and its routes only matter to the
    requests served; [go i.runHttpServer()] followed by the [select] is the
    [ListenAndServe] call of the environment. *)
Definition initHttpServer : M (option error) :=
  let* i := getThis in
  match Server (config i) with
  | None => panic NilDereference
  | Some sc =>
      if decide (AddrPort sc = "") then ret None
      else
        modifyThis (set_gracefulServer (Some {| server_Addr := AddrPort sc |}));;
        let* r := call (ListenAndServe (AddrPort sc)) in
        match r with
        | Some err =>
            ret (Some (Wrap err ("can not start http server (" +:+ AddrPort sc +:+ ")")))
        | None => ret None
        end
  end.

Definition streamingCallback {U : Type} (tradeContext : TradeContext)
    (userCallbackData : U) : M (option error) :=
  let tradeID := GetID tradeContext in
  let* err := call (UpdateTradeAlgorithms tradeID tradeContext) in
  match err with
  | Some err =>
      logPrintf ("can not run algorithm (reason = " +:+ Error err +:+ ")");;
      ret None
  | None => ret None
  end.

Definition Finalize : M (option error) :=
  let* i := getThis in
  match gracefulServer i with
  | None => panic NilDereference
  | Some gs => emit (EvBlockingClose (server_Addr gs));; ret None
  end.

(** The body of the two loops of [Initialize].  A loop returns [Some err]
    when the method returned [err] from inside it, [None] when the loop ran
    to its end. *)
Fixpoint Initialize_fields (name : string) (exchangeNewFunc : option ExchangeNewFunc)
    (fields : list StructField) : M (option error) :=
  match fields with
  | [] => ret None
  | f :: rest =>
      if negb (String.eqb (Tag_config f) name) then Initialize_fields name exchangeNewFunc rest
      else
        let* i := getThis in
        match Exchanges (config i) with
        | None => Initialize_fields name exchangeNewFunc rest
        | Some v =>
            match v !! Name f with
            | None => Initialize_fields name exchangeNewFunc rest
            | Some conf =>
                match exchangeNewFunc with
                | None => Initialize_fields name exchangeNewFunc rest
                | Some new =>
                    logPrintf (name +:+ " exchange create");;
                    let* r := (fun s => let r := new conf (trace s) in
                                        Val r (add_events [EvNewExchange name conf r] s)) in
                    match r with
                    | inr err =>
                        Finalize;;
                        ret (Some (Wrap err ("can not create exchange of " +:+ name)))
                    | inl ex =>
                        emit (EvInitialize ex);;
                        modifyThis (fun i => set_exchanges (<[name := ex]> (exchanges i)) i);;
                        Initialize_fields name exchangeNewFunc rest
                    end
                end
            end
        end
  end.

Fixpoint Initialize_registered (registered : list (string * option ExchangeNewFunc))
    : M (option error) :=
  match registered with
  | [] => ret None
  | (name, exchangeNewFunc) :: rest =>
      let* r := Initialize_fields name exchangeNewFunc exchangesConfigFields in
      match r with
      | Some err => ret (Some err)
      | None => Initialize_registered rest
      end
  end.

(** [Initialize].  The error of [initHttpServer] is tested, and the value
    built by [errors.Errorf] in that branch is dropped: there is no
    [return]. *)
Definition Initialize : M (option error) :=
  let* err := initHttpServer in
  (match err with
   | Some _ => ret tt
   | None => ret tt
   end);;
  Initialize_registered GetRegisterdExchanges.

(** [stopStreaming]: every context of every exchange, whatever the calls
    return. *)
Fixpoint stopStreaming_contexts (ex : Exchange) (cursor : list TradeContext) : M unit :=
  match cursor with
  | [] => ret tt
  | tradeContext :: rest =>
      let* err := call (StopStreaming ex tradeContext) in
      (match err with
       | Some _ => logPrintf ("can not stop streaming (name = " +:+ GetName ex +:+ ")")
       | None => ret tt
       end);;
      let tradeID := GetID tradeContext in
      let* err := call (DestroyTradeAlgorithms tradeID tradeContext) in
      (match err with
       | Some err =>
           logPrintf ("can not destroy algorithm (name = " +:+ GetName ex +:+
                      ", reason = " +:+ Error err +:+ ")")
       | None => ret tt
       end);;
      stopStreaming_contexts ex rest
  end.

Fixpoint stopStreaming_exchanges (order : list (string * Exchange)) : M unit :=
  match order with
  | [] => ret tt
  | (_, ex) :: rest =>
      stopStreaming_contexts ex (GetTradeContextCursor ex);;
      stopStreaming_exchanges rest
  end.

Definition stopStreaming : M (option error) :=
  let* order := rangeExchanges in
  stopStreaming_exchanges order;;
  ret None.

(** [startStreaming]: as for [Initialize], a loop gives [Some err] when
    the method returned [err] from inside it. *)
Fixpoint startStreaming_contexts (ex : Exchange) (cursor : list TradeContext)
    : M (option error) :=
  match cursor with
  | [] => ret None
  | tradeContext :: rest =>
      let tradeID := GetID tradeContext in
      let* err := call (CreateTradeAlgorithms tradeID tradeContext) in
      match err with
      | Some err =>
          stopStreaming;;
          ret (Some (Wrap err ("can not create algorithm  (name = " +:+ GetName ex +:+ ")")))
      | None =>
          let* err := call (StartStreaming ex tradeContext) in
          match err with
          | Some err =>
              stopStreaming;;
              ret (Some (Wrap err ("can not start streaming (name = " +:+ GetName ex +:+ ")")))
          | None => startStreaming_contexts ex rest
          end
      end
  end.

Fixpoint startStreaming_exchanges (order : list (string * Exchange)) : M (option error) :=
  match order with
  | [] => ret None
  | (_, ex) :: rest =>
      let* r := startStreaming_contexts ex (GetTradeContextCursor ex) in
      match r with
      | Some err => ret (Some err)
      | None => startStreaming_exchanges rest
      end
  end.

Definition startStreaming : M (option error) :=
  let* order := rangeExchanges in
  startStreaming_exchanges order.

(** The [time.After] case of the [select] of [ArbitrageLoop]. *)
Definition ArbitrageLoop_tick : M unit :=
  let* i := getThis in
  let* err := call (UpdateArbitrageTradeAlgorithms (exchanges i)) in
  match err with
  | Some err => logPrintf ("can not update arbitrage algorithm (reason = " +:+ Error err +:+ ")")
  | None => ret tt
  end.

Definition startArbitrage : M (option error) :=
  let* i := getThis in
  let* err := call (CreateArbitrageTradeAlgorithms (exchanges i)) in
  match err with
  | Some err => ret (Some (Wrap err "can not create arbitrage algorithm"))
  | None => goArbitrageLoop;; ret None
  end.

(** [close(ch)] panics on a channel that is already closed. *)
Definition close_arbitrageLoopFinishChan : M unit :=
  let* i := getThis in
  match arbitrageLoopFinishChan i with
  | chanClosed => panic CloseOfClosedChannel
  | chanOpen => modifyThis (set_arbitrageLoopFinishChan chanClosed)
  end.

Definition stopArbitrageTrade : M (option error) :=
  close_arbitrageLoopFinishChan;;
  let* i := getThis in
  let* err := call (DestroyArbitrageTradeAlgorithms (exchanges i)) in
  (match err with
   | Some err => logPrintf ("can not destroy arbitrage algorithm (reason = " +:+ Error err +:+ ")")
   | None => ret tt
   end);;
  ret None.

Definition Start : M (option error) :=
  let* err := startStreaming in
  match err with
  | Some err => ret (Some (Wrap err "can not start streaming"))
  | None =>
      let* err := startArbitrage in
      match err with
      | Some err => ret (Some (Wrap err "can not start arbitarage"))
      | None => ret None
      end
  end.

Definition Stop : M (option error) :=
  let* err := stopArbitrageTrade in
  (match err with
   | Some err => logPrintf ("can not stop arbitarage (reason = " +:+ Error err +:+ ")")
   | None => ret tt
   end);;
  let* err := stopStreaming in
  (match err with
   | Some err => logPrintf ("can not stop streaming (reason = " +:+ Error err +:+ ")")
   | None => ret tt
   end);;
  ret None.

(** [NewIntegrator]: the receiver as the struct literal builds it.  The
    fields that are not named are zero: [gracefulServer] is nil.  The
    notifier and the robot are collaborators; a failure to build one of
    them gives no integrator. *)
Definition NewIntegrator (config : Config) (configDir : string) (h : list Event)
    : (Integrator + error) * list Event :=
  let r := respond h NewNotifier in
  let h := h ++ [EvCall NewNotifier r] in
  match r with
  | Some err =>
      (inr (Wrap err ("can not create notifier (config dir = " +:+ configDir +:+
                      ", reason = " +:+ Error err +:+ ")")), h)
  | None =>
      let r := respond h (NewRobot configDir) in
      let h := h ++ [EvCall (NewRobot configDir) r] in
      match r with
      | Some err =>
          (inr (Wrap err ("can not create robot (config dir = " +:+ configDir +:+
                          ", reason = " +:+ Error err +:+ ")")), h)
      | None =>
          (inl {| config := config; gracefulServer := None; exchanges := ∅;
                  arbitrageLoopFinishChan := chanOpen |}, h)
      end
  end.

(** The process right after [NewIntegrator] gave [i] with history [h]. *)
Definition process (i : Integrator) (h : list Event) : State :=
  {| this := i; trace := h; ranges := 0; loops := [] |}.

(** ** Goroutines

    The caller of the integrator and the goroutines of [ArbitrageLoop]
    interleave.  An action is one step of one of them:
    - the channel of the [time.After] of goroutine [g]'s [select] becomes
      ready;
    - the [select] of goroutine [g] takes the case of
      [i.arbitrageLoopFinishChan], which can proceed once the channel is
      closed, and the goroutine returns;
    - the [select] of goroutine [g] takes the case of [time.After], which
      can proceed once its channel is ready; the goroutine updates the
      arbitrage algorithms and enters the [select] again, with a new
      timer;
    - the caller runs a method to its end.
    Go's [select] takes any one of the cases that can proceed. *)

Inductive Method : Type :=
| mInitialize | mFinalize | mStart | mStop | mStopArbitrageTrade.

Definition method (m : Method) : M (option error) :=
  match m with
  | mInitialize => Initialize
  | mFinalize => Finalize
  | mStart => Start
  | mStop => Stop
  | mStopArbitrageTrade => stopArbitrageTrade
  end.

Inductive Action : Type :=
| TimerFires (g : nat)
| TakeFinish (g : nat)
| TakeTick (g : nat)
| Caller (m : Method).

(** [step a s] is the state after action [a], or [None] when [a] cannot
    happen in [s] (a panic of the caller ends the process). *)
Definition step (a : Action) (s : State) : option State :=
  match a with
  | TimerFires g =>
      match loops s !! g with
      | Some (AtSelect false) => Some (set_loops (<[g := AtSelect true]> (loops s)) s)
      | _ => None
      end
  | TakeFinish g =>
      match loops s !! g, arbitrageLoopFinishChan (this s) with
      | Some (AtSelect _), chanClosed => Some (set_loops (<[g := Returned]> (loops s)) s)
      | _, _ => None
      end
  | TakeTick g =>
      match loops s !! g with
      | Some (AtSelect true) =>
          match ArbitrageLoop_tick s with
          | Val _ s' => Some (set_loops (<[g := AtSelect false]> (loops s')) s')
          | Panic _ _ => None
          end
      | _ => None
      end
  | Caller m =>
      match method m s with
      | Val _ s' => Some s'
      | Panic _ _ => None
      end
  end.

Fixpoint run (acts : list Action) (s : State) : option State :=
  match acts with
  | [] => Some s
  | a :: rest =>
      match step a s with
      | Some s' => run rest s'
      | None => None
      end
  end.

(** ** Reading a trace *)

(** The calls of a trace, without their results. *)
Definition calls (evs : list Event) : list Call :=
  omap (fun ev => match ev with EvCall c _ => Some c | _ => None end) evs.

Definition is_new_exchange (ev : Event) : bool :=
  match ev with
  | EvNewExchange _ _ _ | EvInitialize _ => true
  | _ => false
  end.

(** The events of tearing streaming down: stopping a stream, destroying a
    trade algorithm, a line of the log. *)
Definition is_teardown (ev : Event) : bool :=
  match ev with
  | EvCall (StopStreaming _ _) _ | EvCall (DestroyTradeAlgorithms _ _) _ | EvLog _ => true
  | _ => false
  end.

(** Every call of the trace that returned an error is followed at once by
    a line of the log. *)
Definition failures_logged (evs : list Event) : Prop :=
  forall pre c err post, evs = pre ++ EvCall c (Some err) :: post ->
    exists msg rest, post = EvLog msg :: rest.

(** The state in which the body of a [range] over [i.exchanges] starts. *)
Definition ranged (s : State) : State :=
  {| this := this s; trace := trace s; ranges := S (ranges s); loops := loops s |}.

(** The contexts of the exchanges of [order], each with its exchange, in
    the order the two loops meet them. *)
Definition contexts_of (order : list (string * Exchange)) : list (Exchange * TradeContext) :=
  flat_map (fun ne => map (fun tc => (snd ne, tc)) (GetTradeContextCursor (snd ne))) order.

Definition started (p : Exchange * TradeContext) : list Event :=
  [EvCall (CreateTradeAlgorithms (GetID (snd p)) (snd p)) None;
   EvCall (StartStreaming (fst p) (snd p)) None].

Definition teardown_calls (p : Exchange * TradeContext) : list Call :=
  [StopStreaming (fst p) (snd p); DestroyTradeAlgorithms (GetID (snd p)) (snd p)].

(** How the start of context [tradeContext] of [ex] fails after history
    [h]: the creation of its trade algorithms returns [err], or the
    creation succeeds and the opening of the stream returns [err].  [evs]
    are the events of the failed start and [msg] is the message the error
    is wrapped with. *)
Definition failed_start (h : list Event) (ex : Exchange) (tradeContext : TradeContext)
    (err : error) (evs : list Event) (msg : string) : Prop :=
  let create := CreateTradeAlgorithms (GetID tradeContext) tradeContext in
  let open := StartStreaming ex tradeContext in
  (respond h create = Some err /\
   evs = [EvCall create (Some err)] /\
   msg = "can not create algorithm  (name = " +:+ GetName ex +:+ ")")
  \/
  (respond h create = None /\
   respond (h ++ [EvCall create None]) open = Some err /\
   evs = [EvCall create None; EvCall open (Some err)] /\
   msg = "can not start streaming (name = " +:+ GetName ex +:+ ")").


(** What a failed [startStreaming] leaves: the contexts [pre] started, the
    failed start [evs] of the next one, and then the whole of
    [stopStreaming]. *)
Definition rolled_back (s0 : State) (ps : list (Exchange * TradeContext))
    (r : Result (option error)) : Prop :=
  exists pre ex tc post err evs msg new,
    ps = pre ++ (ex, tc) :: post /\
    failed_start (trace s0 ++ flat_map started pre) ex tc err evs msg /\
    stopStreaming (add_events (flat_map started pre ++ evs) s0) =
      Val None (add_events new (ranged (add_events (flat_map started pre ++ evs) s0))) /\
    Forall (fun ev => is_teardown ev = true) new /\
    r = Val (Some (Wrap err msg))
            (add_events new (ranged (add_events (flat_map started pre ++ evs) s0))).

Definition is_arbitrage (ev : Event) : bool :=
  match ev with
  | EvCall (CreateArbitrageTradeAlgorithms _) _
  | EvCall (UpdateArbitrageTradeAlgorithms _) _
  | EvCall (DestroyArbitrageTradeAlgorithms _) _ => true
  | _ => false
  end.


(** The registry after the events [evs]: every exchange a constructor
    returned is stored under its name, in the order of the trace. *)
Definition constructed (evs : list Event) (m : gmap string Exchange) : gmap string Exchange :=
  foldl (fun m ev => match ev with
                     | EvNewExchange name _ (inl ex) => <[name := ex]> m
                     | _ => m
                     end) m evs.

(** The state in which [initHttpServer] has built the server for [addr]
    and the [select] has received [r]. *)
Definition serving (addr : string) (r : option error) (s : State) : State :=
  add_events [EvCall (ListenAndServe addr) r]
             (set_this (set_gracefulServer (Some {| server_Addr := addr |})) s).

(** The state after the constructions [evs] of [Initialize]. *)
Definition after_new (evs : list Event) (s : State) : State :=
  {| this := set_exchanges (constructed evs (exchanges (this s))) (this s);
     trace := trace s ++ evs; ranges := ranges s; loops := loops s |}.


(** The steps of the goroutines themselves that need no timer to fire and
    no caller: taking a case of a [select]. *)
Definition is_select (a : Action) : bool :=
  match a with
  | TakeFinish _ | TakeTick _ => true
  | _ => false
  end.

(** ** More readings of a run *)

(** The state a method ends in, whether it returned or panicked. *)
Definition final {A : Type} (r : Result A) : State :=
  match r with
  | Val _ s => s
  | Panic _ s => s
  end.

Definition is_caller (a : Action) : bool :=
  match a with
  | Caller _ => true
  | _ => false
  end.

(** The number of times a schedule takes the tick case of a [select]. *)
Definition ticks (acts : list Action) : nat :=
  length (omap (fun a => match a with TakeTick g => Some g | _ => None end) acts).

(** A call of a constructor is justified when it is made for a name of
    the registry [registered], under which a constructor is registered,
    and with the configuration that a field of [fields] tagged with that
    name holds in the [Exchanges] document of [cfg]. *)
Definition construction_justified (registered : list (string * option ExchangeNewFunc))
    (fields : list StructField) (cfg : Config) (ev : Event) : Prop :=
  match ev with
  | EvNewExchange name conf _ =>
      exists v new f,
        Exchanges cfg = Some v /\ (name, Some new) ∈ registered /\
        f ∈ fields /\ Tag_config f = name /\ v !! Name f = Some conf
  | _ => True
  end.

(** The trace [evs] shows the construction of an exchange for [name] from
    [conf], followed by its initialization. *)
Definition constructed_from (name : string) (conf : ExchangeConf) (evs : list Event) : Prop :=
  exists ex, EvNewExchange name conf (inl ex) ∈ evs /\ EvInitialize ex ∈ evs.

(** The receiver with its channel closed. *)
Definition cancel (s : State) : State :=
  set_this (set_arbitrageLoopFinishChan chanClosed) s.

(** [s'] has the configuration, the server and the registry of [s]. *)
Definition same_setup (s s' : State) : Prop :=
  config (this s') = config (this s) /\
  gracefulServer (this s') = gracefulServer (this s) /\
  exchanges (this s') = exchanges (this s).

End Model.

Arguments Val {API A} a s.
Arguments Panic {API A} p s.

(** ** A small process to run the model on

    Two exchanges, [bitflyer] with the contexts 1 and 2 and [zaif] with the
    context 3; the struct [exchangesConfig] has a field for each. *)

Module Demo.

Definition api : ExchangeAPI :=
  {| Exchange := string; TradeContext := nat; TradeID := nat; ExchangeConf := string;
     GetName := fun ex => ex;
     GetTradeContextCursor := fun ex =>
       if String.eqb ex "bitflyer" then [1; 2]
       else if String.eqb ex "zaif" then [3] else [];
     GetID := fun tc => tc |}.

Definition env (rsp : list (@Event api) -> @Call api -> option error)
    (reg : list (string * option (@ExchangeNewFunc api))) : @Environment api :=
  {| respond := rsp;
     mapOrder := fun _ m => map_to_list m;
     mapOrder_perm := fun _ _ => reflexivity _;
     GetRegisterdExchanges := reg;
     exchangesConfigFields :=
       [ {| Name := "Bitflyer"; Tag_config := "bitflyer" |};
         {| Name := "Zaif"; Tag_config := "zaif" |} ] |}.

(** Collaborators: one that never fails, and ones that fail one call. *)
Definition quiet : list (@Event api) -> @Call api -> option error :=
  fun _ _ => None.

Definition bindFails : list (@Event api) -> @Call api -> option error :=
  fun _ c => match c with
             | ListenAndServe _ => Some (errorString "bind: address already in use")
             | _ => None
             end.

Definition openFails (n : nat) : list (@Event api) -> @Call api -> option error :=
  fun _ c => match c with
             | StartStreaming _ tc =>
                 if Nat.eqb tc n then Some (errorString "stream refused") else None
             | _ => None
             end.

Definition arbitrageFails : list (@Event api) -> @Call api -> option error :=
  fun _ c => match c with
             | CreateArbitrageTradeAlgorithms _ => Some (errorString "no algorithm")
             | _ => None
             end.

Definition stopFails : list (@Event api) -> @Call api -> option error :=
  fun _ c => match c with
             | StopStreaming _ _ => Some (errorString "not streaming")
             | DestroyTradeAlgorithms _ _ => Some (errorString "no such algorithm")
             | _ => None
             end.

Definition updateFails : list (@Event api) -> @Call api -> option error :=
  fun _ c => match c with
             | UpdateTradeAlgorithms _ _ => Some (errorString "no price")
             | _ => None
             end.

Definition newOk (name : string) : @ExchangeNewFunc api := fun _ _ => inl name.
Definition newFails (msg : string) : @ExchangeNewFunc api := fun _ _ => inr (errorString msg).

Definition bothOk : list (string * option (@ExchangeNewFunc api)) :=
  [("bitflyer", Some (newOk "bitflyer")); ("zaif", Some (newOk "zaif"))].

Definition zaifFails : list (string * option (@ExchangeNewFunc api)) :=
  [("bitflyer", Some (newOk "bitflyer")); ("zaif", Some (newFails "bad key"))].

Definition bothConfigured : gmap string string :=
  <["Bitflyer" := "key-b"]> (<["Zaif" := "key-z"]> ∅).

Definition cfg (server : option serverConfig) (exs : option (gmap string string))
    : @Config api :=
  @Build_Config api server exs.

Definition listening : option serverConfig := Some {| Debug := false; AddrPort := ":8080" |}.
Definition noAddress : option serverConfig := Some {| Debug := false; AddrPort := "" |}.

(** The receiver as [NewIntegrator] builds it. *)
Definition fresh (c : @Config api) : @State api :=
  process (@Build_Integrator api c None ∅ chanOpen) [].

(** A receiver whose registry holds the two exchanges. *)
Definition connected : @State api :=
  process (@Build_Integrator api (cfg listening (Some bothConfigured))
             (Some {| server_Addr := ":8080" |})
             (<["bitflyer" := "bitflyer"]> (<["zaif" := "zaif"]> ∅))
             chanOpen) [].

(** A receiver whose channel is closed, with one goroutine of the loop in
    its [select] and one that returned. *)
Definition cancelled : @State api :=
  {| this := @Build_Integrator api (cfg listening (Some bothConfigured))
               (Some {| server_Addr := ":8080" |})
               (<["bitflyer" := "bitflyer"]> (<["zaif" := "zaif"]> ∅))
               chanClosed;
     trace := []; ranges := 1; loops := [AtSelect false; Returned] |}.

(** A receiver on which [Start] succeeded: the channel is open and one
    goroutine of the loop waits in its [select]. *)
Definition running : @State api :=
  {| this := @Build_Integrator api (cfg listening (Some bothConfigured))
               (Some {| server_Addr := ":8080" |})
               (<["bitflyer" := "bitflyer"]> (<["zaif" := "zaif"]> ∅))
               chanOpen;
     trace := []; ranges := 1; loops := [AtSelect false] |}.

End Demo.

(** * Properties *)

Section Properties.

Context `{Env : Environment}.

(** ** Traces *)

Lemma add_events_add_events (a b : list Event) (s : State) :
  add_events b (add_events a s) = add_events (a ++ b) s.
Proof. unfold add_events; simpl. by rewrite app_assoc. Qed.

Lemma add_events_nil (s : State) : add_events [] s = s.
Proof. destruct s; unfold add_events; simpl. by rewrite app_nil_r. Qed.

Lemma calls_app (a b : list Event) : calls (a ++ b) = calls a ++ calls b.
Proof. unfold calls. apply omap_app. Qed.

Lemma flat_map_of_map {A B C : Type} (f : B -> list C) (g : A -> B) (l : list A) :
  flat_map f (map g l) = flat_map (fun x => f (g x)) l.
Proof. induction l as [|x l IH]; simpl; [reflexivity|by rewrite IH]. Qed.

Lemma failures_logged_nil : failures_logged [].
Proof. intros [|? ?] ? ? ? H; discriminate H. Qed.

Lemma failures_logged_app (a b : list Event) :
  failures_logged a -> failures_logged b -> failures_logged (a ++ b).
Proof.
  intros Ha Hb pre c err post Heq.
  apply app_eq_app in Heq as [l [[-> Hl] | [-> ->]]].
  - destruct l as [|ev l'].
    + simpl in Hl. exact (Hb [] c err post (eq_sym Hl)).
    + injection Hl as <- ->.
      destruct (Ha pre c err l' eq_refl) as (msg & rest & ->).
      by exists msg, (rest ++ b).
  - exact (Hb l c err post eq_refl).
Qed.

Lemma failures_logged_ok (c : Call) : failures_logged [EvCall c None].
Proof.
  intros [|? [|? ?]] ? ? ? H; simpl in H; try discriminate H.
Qed.

Lemma failures_logged_failed (c : Call) (err : error) (msg : string) :
  failures_logged [EvCall c (Some err); EvLog msg].
Proof.
  intros [|? [|? [|? ?]]] ? ? ? H; simpl in H; try discriminate H.
  injection H as _ _ <-. by exists msg, [].
Qed.

(** ** Tearing streaming down *)

(** An explicit trace in which every failed call is followed by a line of
    the log. *)
Ltac logged_explicit :=
  let pre := fresh "pre" in
  let H := fresh "H" in
  intros pre ? ? ? H; simpl in H;
  do 5 (try (destruct pre as [|? pre]; simpl in H;
             [ try discriminate H; injection H as ? ? ?; subst; eauto | ]));
  try discriminate H.

Lemma stopStreaming_contexts_run (ex : Exchange) (cursor : list TradeContext) (s : State) :
  exists new,
    stopStreaming_contexts ex cursor s = Val tt (add_events new s) /\
    calls new = flat_map (fun tc => teardown_calls (ex, tc)) cursor /\
    Forall (fun ev => is_teardown ev = true) new /\
    failures_logged new.
Proof.
  revert s. induction cursor as [|tc rest IH]; intros s.
  - exists []. rewrite add_events_nil. repeat split; auto using failures_logged_nil.
  - cbn [stopStreaming_contexts]. unfold bind, call, logPrintf, emit, ret.
    cbv beta iota zeta.
    destruct (respond (trace s) (StopStreaming ex tc)) as [e1|]; cbv beta iota zeta;
      match goal with
      | |- context [respond ?h (DestroyTradeAlgorithms ?i ?t)] =>
          destruct (respond h (DestroyTradeAlgorithms i t)) as [e2|]
      end; cbv beta iota zeta;
      rewrite !add_events_add_events;
      match goal with
      | |- context [stopStreaming_contexts ex rest (add_events ?evs s)] =>
          destruct (IH (add_events evs s)) as (new & -> & Hc & Ht & Hl);
          exists (evs ++ new)
      end;
      rewrite add_events_add_events;
      (split; [reflexivity|]);
      (split; [rewrite calls_app, Hc; reflexivity|]);
      (split; [apply Forall_app; split; [repeat constructor|exact Ht]|]);
      (apply failures_logged_app; [logged_explicit|exact Hl]).
Qed.

Lemma stopStreaming_exchanges_run (order : list (string * Exchange)) (s : State) :
  exists new,
    stopStreaming_exchanges order s = Val tt (add_events new s) /\
    calls new = flat_map teardown_calls (contexts_of order) /\
    Forall (fun ev => is_teardown ev = true) new /\
    failures_logged new.
Proof.
  revert s. induction order as [|[name ex] rest IH]; intros s.
  - exists []. rewrite add_events_nil. repeat split; auto using failures_logged_nil.
  - simpl. unfold bind.
    destruct (stopStreaming_contexts_run ex (GetTradeContextCursor ex) s)
      as (new1 & -> & Hc1 & Ht1 & Hl1).
    destruct (IH (add_events new1 s)) as (new2 & -> & Hc2 & Ht2 & Hl2).
    exists (new1 ++ new2). rewrite add_events_add_events.
    split; [reflexivity|]. split.
    + rewrite calls_app, Hc1, Hc2. unfold contexts_of; simpl.
      rewrite flat_map_app. f_equal. simpl. by rewrite flat_map_of_map.
    + split; [by apply Forall_app|by apply failures_logged_app].
Qed.

Lemma stopStreaming_run (s : State) :
  exists new,
    stopStreaming s = Val None (add_events new (ranged s)) /\
    calls new =
      flat_map teardown_calls (contexts_of (mapOrder (ranges s) (exchanges (this s)))) /\
    Forall (fun ev => is_teardown ev = true) new /\
    failures_logged new.
Proof.
  unfold stopStreaming, bind, rangeExchanges.
  destruct (stopStreaming_exchanges_run (mapOrder (ranges s) (exchanges (this s))) (ranged s))
    as (new & Hrun & H).
  exists new. unfold ranged in Hrun. rewrite Hrun. split; [reflexivity|exact H].
Qed.

Lemma elem_of_contexts_of (order : list (string * Exchange)) (name : string)
    (ex : Exchange) (tc : TradeContext) :
  (name, ex) ∈ order -> tc ∈ GetTradeContextCursor ex -> (ex, tc) ∈ contexts_of order.
Proof.
  intros Hin Htc. unfold contexts_of.
  apply list_elem_of_In, in_flat_map. exists (name, ex). split.
  - by apply list_elem_of_In.
  - simpl. apply in_map. by apply list_elem_of_In.
Qed.

(** C6: [stopStreaming] returns nil from every state; it stops the stream
    and destroys the trade algorithms of every context of every exchange
    of the registry, in the order of the walk and whatever these calls
    return; every call that fails is followed by a line of the log. *)
Theorem stopStreaming_best_effort (s : State) :
  exists new,
    stopStreaming s = Val None (add_events new (ranged s)) /\
    calls new =
      flat_map teardown_calls (contexts_of (mapOrder (ranges s) (exchanges (this s)))) /\
    (forall name ex tc,
        exchanges (this s) !! name = Some ex -> tc ∈ GetTradeContextCursor ex ->
        StopStreaming ex tc ∈ calls new /\
        DestroyTradeAlgorithms (GetID tc) tc ∈ calls new) /\
    failures_logged new.
Proof.
  destruct (stopStreaming_run s) as (new & Hrun & Hc & _ & Hl).
  exists new. split; [exact Hrun|]. split; [exact Hc|]. split; [|exact Hl].
  intros name ex tc Hex Htc.
  assert (Hp : (ex, tc) ∈ contexts_of (mapOrder (ranges s) (exchanges (this s)))).
  { apply (elem_of_contexts_of _ name); [|exact Htc].
    rewrite (mapOrder_perm (ranges s) (exchanges (this s))).
    by apply elem_of_map_to_list. }
  rewrite Hc.
  apply list_elem_of_In in Hp.
  split; apply list_elem_of_In, in_flat_map; exists (ex, tc); (split; [exact Hp|]);
    simpl; auto.
Qed.


(** ** Starting streaming *)

Lemma rolled_back_cons (s0 : State) (p : Exchange * TradeContext)
    (ps : list (Exchange * TradeContext)) (r : Result (option error)) :
  rolled_back (add_events (started p) s0) ps r -> rolled_back s0 (p :: ps) r.
Proof.
  intros (pre & ex & tc & post & err & evs & msg & new & -> & Hf & Hs & Ht & ->).
  exists (p :: pre), ex, tc, post, err, evs, msg, new.
  cbn [flat_map]. rewrite add_events_add_events in Hs. rewrite add_events_add_events.
  rewrite <- !app_assoc in *. cbn [add_events trace] in Hf. rewrite <- app_assoc in Hf.
  repeat split; assumption.
Qed.

Lemma rolled_back_app (s0 : State) (l ps : list (Exchange * TradeContext))
    (r : Result (option error)) :
  rolled_back (add_events (flat_map started l) s0) ps r -> rolled_back s0 (l ++ ps) r.
Proof.
  revert s0. induction l as [|p l IHl]; intros s0 H.
  - cbn [flat_map] in H. by rewrite add_events_nil in H.
  - cbn [flat_map app] in *. apply rolled_back_cons, IHl.
    by rewrite add_events_add_events.
Qed.

Lemma startStreaming_contexts_run (ex : Exchange) (cursor : list TradeContext) (s : State) :
  startStreaming_contexts ex cursor s =
    Val None (add_events (flat_map started (map (fun tc => (ex, tc)) cursor)) s)
  \/ rolled_back s (map (fun tc => (ex, tc)) cursor) (startStreaming_contexts ex cursor s).
Proof.
  revert s. induction cursor as [|tc rest IH]; intros s.
  - left. simpl. by rewrite add_events_nil.
  - cbn [startStreaming_contexts map]. unfold bind, call, ret. cbv beta iota zeta.
    destruct (respond (trace s) (CreateTradeAlgorithms (GetID tc) tc)) as [err|] eqn:Hcreate;
      cbv beta iota zeta.
    + right.
      destruct (stopStreaming_run (add_events [EvCall (CreateTradeAlgorithms (GetID tc) tc) (Some err)] s))
        as (new & Hs & _ & Ht & _).
      rewrite Hs.
      eexists [], ex, tc, (map (fun tc => (ex, tc)) rest), err, _, _, new.
      cbn [flat_map app]. rewrite app_nil_r.
      split; [reflexivity|]. split; [left; eauto|]. split; [exact Hs|]. split; [exact Ht|].
      reflexivity.
    + change (trace (add_events [EvCall (CreateTradeAlgorithms (GetID tc) tc) None] s))
        with (trace s ++ [EvCall (CreateTradeAlgorithms (GetID tc) tc) None]).
      destruct (respond (trace s ++ [EvCall (CreateTradeAlgorithms (GetID tc) tc) None])
                        (StartStreaming ex tc)) as [err|] eqn:Hopen;
        cbv beta iota zeta; rewrite add_events_add_events.
      * right.
        destruct (stopStreaming_run
                    (add_events ([EvCall (CreateTradeAlgorithms (GetID tc) tc) None] ++
                                 [EvCall (StartStreaming ex tc) (Some err)]) s))
          as (new & Hs & _ & Ht & _).
        rewrite Hs.
        eexists [], ex, tc, (map (fun tc => (ex, tc)) rest), err, _, _, new.
        cbn [flat_map app] in *. rewrite app_nil_r.
        split; [reflexivity|]. split; [right; eauto|]. split; [exact Hs|]. split; [exact Ht|].
        reflexivity.
      * change ([EvCall (CreateTradeAlgorithms (GetID tc) tc) None] ++
                [EvCall (StartStreaming ex tc) None]) with (started (ex, tc)).
        destruct (IH (add_events (started (ex, tc)) s)) as [Hok | Hfail].
        -- left. rewrite Hok, add_events_add_events. reflexivity.
        -- right. by apply rolled_back_cons.
Qed.

Lemma startStreaming_exchanges_run (order : list (string * Exchange)) (s : State) :
  startStreaming_exchanges order s =
    Val None (add_events (flat_map started (contexts_of order)) s)
  \/ rolled_back s (contexts_of order) (startStreaming_exchanges order s).
Proof.
  revert s. induction order as [|[name ex] rest IH]; intros s.
  - left. simpl. by rewrite add_events_nil.
  - cbn [startStreaming_exchanges]. unfold bind.
    change (contexts_of ((name, ex) :: rest))
      with (map (fun tc => (ex, tc)) (GetTradeContextCursor ex) ++ contexts_of rest).
    destruct (startStreaming_contexts_run ex (GetTradeContextCursor ex) s) as [Hok | Hfail].
    + rewrite Hok.
      destruct (IH (add_events (flat_map started
                  (map (fun tc => (ex, tc)) (GetTradeContextCursor ex))) s)) as [Hok' | Hfail'].
      * left. rewrite Hok', add_events_add_events, flat_map_app. reflexivity.
      * right. by apply rolled_back_app.
    + right.
      destruct Hfail as (pre & ex' & tc & post & err & evs & msg & new & Hps & Hf & Hs & Ht & Hr).
      rewrite Hr. unfold ret.
      exists pre, ex', tc, (post ++ contexts_of rest), err, evs, msg, new.
      rewrite Hps, <- app_assoc. repeat split; assumption.
Qed.

Lemma startStreaming_run (s : State) :
  let ps := contexts_of (mapOrder (ranges s) (exchanges (this s))) in
  startStreaming s = Val None (add_events (flat_map started ps) (ranged s))
  \/ rolled_back (ranged s) ps (startStreaming s).
Proof.
  unfold startStreaming, bind, rangeExchanges.
  apply (startStreaming_exchanges_run (mapOrder (ranges s) (exchanges (this s))) (ranged s)).
Qed.




(** ** Start *)

Lemma is_teardown_not_arbitrage (evs : list Event) :
  Forall (fun ev => is_teardown ev = true) evs ->
  Forall (fun ev => is_arbitrage ev = false) evs.
Proof.
  intros H. eapply Forall_impl; [exact H|].
  intros [[] ?| | | |]; simpl; congruence.
Qed.

Lemma started_not_arbitrage (ps : list (Exchange * TradeContext)) :
  Forall (fun ev => is_arbitrage ev = false) (flat_map started ps).
Proof.
  induction ps as [|p ps IH]; simpl; repeat constructor; exact IH.
Qed.

(** C7: [Start] runs [startStreaming] and then [startArbitrage].  When
    [startStreaming] fails, [Start] returns its error wrapped and leaves
    the state [startStreaming] left: no call to the arbitrage algorithms
    is in the trace and no goroutine is launched.  When the creation of
    the arbitrage algorithms fails after streaming started, [Start]
    returns that error wrapped twice; the trace is the one of the starts
    followed by the failed creation, so nothing is stopped, and no
    goroutine is launched.  When both succeed [Start] returns nil and the
    loop is launched. *)
Theorem Start_streaming_then_arbitrage (s : State) :
  let ps := contexts_of (mapOrder (ranges s) (exchanges (this s))) in
  let s1 := add_events (flat_map started ps) (ranged s) in
  let create := CreateArbitrageTradeAlgorithms (exchanges (this s)) in
  (exists err s' new,
      startStreaming s = Val (Some err) s' /\
      Start s = Val (Some (Wrap err "can not start streaming")) s' /\
      trace s' = trace s ++ new /\
      Forall (fun ev => is_arbitrage ev = false) new /\
      loops s' = loops s)
  \/ (exists err,
      startStreaming s = Val None s1 /\
      respond (trace s1) create = Some err /\
      Start s = Val (Some (Wrap (Wrap err "can not create arbitrage algorithm")
                                "can not start arbitarage"))
                    (add_events [EvCall create (Some err)] s1))
  \/ (startStreaming s = Val None s1 /\
      respond (trace s1) create = None /\
      Start s = Val None (set_loops (loops s ++ [AtSelect false])
                                    (add_events [EvCall create None] s1))).
Proof.
  intros ps s1 create. unfold Start, bind.
  destruct (startStreaming_run s) as [Hok | Hfail].
  - fold ps in Hok. fold s1 in Hok. rewrite Hok. right.
    unfold startArbitrage, bind, getThis, call, goArbitrageLoop, ret. cbv beta iota zeta.
    change (exchanges (this s1)) with (exchanges (this s)). fold create.
    destruct (respond (trace s1) create) as [err|] eqn:Hcreate.
    + left. exists err. auto.
    + right. auto.
  - left.
    destruct Hfail as (pre & ex & tc & post & err & evs & msg & new & Hps & Hf & Hs & Ht & Hr).
    rewrite Hr. unfold ret.
    eexists _, _, ((flat_map started pre ++ evs) ++ new).
    split; [reflexivity|]. split; [reflexivity|]. split.
    + cbn [add_events ranged trace]. by rewrite !app_assoc.
    + split; [|reflexivity].
      apply Forall_app. split; [apply Forall_app; split|].
      * apply started_not_arbitrage.
      * destruct Hf as [(_ & -> & _) | (_ & _ & -> & _)]; repeat constructor.
      * by apply is_teardown_not_arbitrage.
Qed.

(** ** The streaming callback *)

(** C9: the callback hands the context to [UpdateTradeAlgorithms] under
    the identifier of the context; when that call fails the error is
    written to the log; the callback returns nil in both cases and
    changes nothing of the receiver. *)
Theorem streamingCallback_returns_nil {U : Type} (tradeContext : TradeContext)
    (userCallbackData : U) (s : State) :
  let update := UpdateTradeAlgorithms (GetID tradeContext) tradeContext in
  streamingCallback tradeContext userCallbackData s =
    Val None
      (add_events
         match respond (trace s) update with
         | Some err =>
             [EvCall update (Some err);
              EvLog ("can not run algorithm (reason = " +:+ Error err +:+ ")")]
         | None => [EvCall update None]
         end s).
Proof.
  intros update. unfold streamingCallback, bind, call, logPrintf, emit, ret.
  cbv beta iota zeta. fold update.
  destruct (respond (trace s) update) as [err|]; [|reflexivity].
  by rewrite add_events_add_events.
Qed.

(** ** Stopping the arbitrage loop *)



(** ** Initialize *)

(** The receiver [NewIntegrator] gives: no server yet, an empty registry
    and an open channel. *)
Lemma NewIntegrator_receiver (c : Config) (configDir : string) (h h' : list Event)
    (i : Integrator) :
  NewIntegrator c configDir h = (inl i, h') ->
  i = {| config := c; gracefulServer := None; exchanges := ∅;
         arbitrageLoopFinishChan := chanOpen |}.
Proof.
  unfold NewIntegrator. cbv zeta.
  destruct (respond h NewNotifier); [discriminate|].
  destruct (respond _ (NewRobot configDir)); [discriminate|].
  by intros [= <- _].
Qed.

Lemma constructed_app (a b : list Event) (m : gmap string Exchange) :
  constructed (a ++ b) m = constructed b (constructed a m).
Proof. unfold constructed. apply foldl_app. Qed.

Lemma after_new_after_new (a b : list Event) (s : State) :
  after_new b (after_new a s) = after_new (a ++ b) s.
Proof.
  unfold after_new; simpl. by rewrite constructed_app, app_assoc.
Qed.

Lemma after_new_nil (s : State) : after_new [] s = s.
Proof. destruct s as [[] ? ? ?]. unfold after_new; simpl. by rewrite app_nil_r. Qed.




Lemma Initialize_fields_nil_Exchanges (name : string)
    (exchangeNewFunc : option ExchangeNewFunc) (fields : list StructField) (s : State) :
  Exchanges (config (this s)) = None ->
  Initialize_fields name exchangeNewFunc fields s = Val None s.
Proof.
  intros Hnil. induction fields as [|f rest IH]; [reflexivity|].
  cbn [Initialize_fields].
  destruct (negb (String.eqb (Tag_config f) name)); [exact IH|].
  unfold bind, getThis. by rewrite Hnil.
Qed.

Lemma Initialize_registered_nil_Exchanges
    (registered : list (string * option ExchangeNewFunc)) (s : State) :
  Exchanges (config (this s)) = None ->
  Initialize_registered registered s = Val None s.
Proof.
  intros Hnil. induction registered as [|[name f] rest IH]; [reflexivity|].
  cbn [Initialize_registered]. unfold bind.
  by rewrite Initialize_fields_nil_Exchanges.
Qed.

Lemma initHttpServer_run (s : State) (sc : serverConfig) :
  Server (config (this s)) = Some sc ->
  initHttpServer s =
    if decide (AddrPort sc = "") then Val None s
    else let r := respond (trace s) (ListenAndServe (AddrPort sc)) in
         Val match r with
             | Some err =>
                 Some (Wrap err ("can not start http server (" +:+ AddrPort sc +:+ ")"))
             | None => None
             end (serving (AddrPort sc) r s).
Proof.
  intros Hsc. unfold initHttpServer, bind, getThis, modifyThis, call, ret.
  cbv beta iota zeta. rewrite Hsc.
  destruct (decide (AddrPort sc = "")); [reflexivity|].
  cbv beta iota zeta. cbn [set_this trace].
  by destruct (respond (trace s) (ListenAndServe (AddrPort sc))).
Qed.

Lemma Initialize_run (s : State) (sc : serverConfig) :
  Server (config (this s)) = Some sc ->
  Initialize s =
    if decide (AddrPort sc = "") then Initialize_registered GetRegisterdExchanges s
    else Initialize_registered GetRegisterdExchanges
           (serving (AddrPort sc) (respond (trace s) (ListenAndServe (AddrPort sc))) s).
Proof.
  intros Hsc. unfold Initialize, bind at 1 2. rewrite (initHttpServer_run s sc Hsc).
  destruct (decide (AddrPort sc = "")); [reflexivity|].
  cbv beta iota zeta.
  by destruct (respond (trace s) (ListenAndServe (AddrPort sc))).
Qed.


(** C10, as the code has it: when the configuration has a [Server]
    section and its [Exchanges] pointer is nil, [Initialize] returns nil
    for every registry of constructors; it calls no constructor and leaves
    the registry of exchanges as it was, which is empty after
    [NewIntegrator]. *)
Theorem Initialize_nil_Exchanges (s : State) (sc : serverConfig) :
  Server (config (this s)) = Some sc ->
  Exchanges (config (this s)) = None ->
  exists s' new,
    Initialize s = Val None s' /\
    exchanges (this s') = exchanges (this s) /\
    trace s' = trace s ++ new /\
    Forall (fun ev => is_new_exchange ev = false) new.
Proof.
  intros Hsc Hnil. rewrite (Initialize_run s sc Hsc).
  destruct (decide (AddrPort sc = "")).
  - rewrite Initialize_registered_nil_Exchanges by exact Hnil.
    exists s, []. rewrite app_nil_r. auto.
  - rewrite Initialize_registered_nil_Exchanges by exact Hnil.
    eexists _, _. split; [reflexivity|]. split; [reflexivity|].
    split; [reflexivity|]. repeat constructor.
Qed.


(** ** The arbitrage loop and its cancellation *)

Lemma run_selects_without_tick (acts : list Action) (s s' : State) :
  Forall (fun a => is_select a = true) acts ->
  Forall (fun pc => pc <> AtSelect true) (loops s) ->
  run acts s = Some s' ->
  trace s' = trace s.
Proof.
  revert s. induction acts as [|a acts IH]; intros s Hacts Hpcs Hrun.
  - by injection Hrun as <-.
  - apply Forall_cons in Hacts as [Ha Hacts]. cbn [run] in Hrun.
    destruct a as [g|g|g|m]; try discriminate Ha; cbn [step] in Hrun.
    + destruct (loops s !! g) as [[tick|]|] eqn:Hg; try discriminate Hrun.
      destruct (arbitrageLoopFinishChan (this s)); try discriminate Hrun.
      change (trace s) with (trace (set_loops (<[g := Returned]> (loops s)) s)).
      apply (IH _ Hacts); [|exact Hrun].
      cbn [set_loops loops]. apply Forall_insert; [exact Hpcs|discriminate].
    + destruct (loops s !! g) as [[[|]|]|] eqn:Hg; try discriminate Hrun.
      exfalso. apply list_elem_of_lookup_2 in Hg.
      rewrite Forall_forall in Hpcs. by apply (Hpcs _ Hg).
Qed.

(** C8, as the code has it: once the channel is closed, the [select] of a
    goroutine of the loop can take the cancellation case, and the
    goroutine then returns without an update; it cannot take the tick
    case while the tick has not fired; a goroutine that returned takes no
    step; and as long as no tick is ready or fires, no update is invoked,
    whatever the goroutines do. *)
Theorem ArbitrageLoop_after_cancellation (s : State) :
  arbitrageLoopFinishChan (this s) = chanClosed ->
  (forall g tick, loops s !! g = Some (AtSelect tick) ->
     step (TakeFinish g) s = Some (set_loops (<[g := Returned]> (loops s)) s)) /\
  (forall g, loops s !! g = Some (AtSelect false) -> step (TakeTick g) s = None) /\
  (forall g, loops s !! g = Some Returned ->
     step (TimerFires g) s = None /\ step (TakeFinish g) s = None /\
     step (TakeTick g) s = None) /\
  (forall acts s',
     Forall (fun a => is_select a = true) acts ->
     Forall (fun pc => pc <> AtSelect true) (loops s) ->
     run acts s = Some s' -> trace s' = trace s).
Proof.
  intros Hclosed. split; [|split; [|split]].
  - intros g tick Hg. cbn [step]. by rewrite Hg, Hclosed.
  - intros g Hg. cbn [step]. by rewrite Hg.
  - intros g Hg. cbn [step]. by rewrite Hg.
  - intros acts s'. apply run_selects_without_tick.
Qed.

End Properties.

(** * Further properties of the lifecycle *)

Section Lifecycle.

Context `{Env : Environment}.

(** Every failed call of a short, explicit trace is followed by its line
    of the log. *)
Ltac logged_by_cases :=
  let pre := fresh "pre" in
  let H := fresh "H" in
  intros pre ? ? ? H; simpl in H;
  do 4 (try (destruct pre as [|? pre]; simpl in H;
             [ try discriminate H; injection H as ? ? ?; subst; eauto | ]));
  try discriminate H.

(** ** Stop *)

Lemma stopArbitrageTrade_run (s : State) :
  arbitrageLoopFinishChan (this s) = chanOpen ->
  exists evs,
    stopArbitrageTrade s = Val None (add_events evs (cancel s)) /\
    calls evs = [DestroyArbitrageTradeAlgorithms (exchanges (this s))] /\
    failures_logged evs.
Proof.
  intros Hopen.
  unfold stopArbitrageTrade, close_arbitrageLoopFinishChan, bind, getThis, modifyThis,
    call, logPrintf, emit, ret.
  cbv beta iota zeta. rewrite Hopen. fold (cancel s).
  change (exchanges (this (cancel s))) with (exchanges (this s)).
  destruct (respond (trace (cancel s))
              (DestroyArbitrageTradeAlgorithms (exchanges (this s)))) as [err|];
    rewrite ?add_events_add_events;
    (eexists; split; [reflexivity|]; split; [reflexivity|]; logged_by_cases).
Qed.

Lemma Stop_run (s : State) :
  arbitrageLoopFinishChan (this s) = chanOpen ->
  exists new,
    Stop s = Val None (add_events new (ranged (cancel s))) /\
    calls new =
      DestroyArbitrageTradeAlgorithms (exchanges (this s)) ::
      flat_map teardown_calls (contexts_of (mapOrder (ranges s) (exchanges (this s)))) /\
    failures_logged new.
Proof.
  intros Hopen. unfold Stop, bind.
  destruct (stopArbitrageTrade_run s Hopen) as (evs & -> & Hc & Hl).
  cbv beta iota zeta. unfold ret at 1.
  destruct (stopStreaming_run (add_events evs (cancel s))) as (new & -> & Hc' & _ & Hl').
  unfold ret. exists (evs ++ new). split.
  - f_equal. unfold add_events, ranged, cancel, set_this; simpl. by rewrite app_assoc.
  - rewrite calls_app, Hc, Hc'. split; [reflexivity|by apply failures_logged_app].
Qed.

(** X1: [Stop] makes maximal progress: on an open channel it returns nil
    whatever the collaborators answer; it destroys the arbitrage algorithms
    and then stops and destroys every context of every exchange, logs each
    failure, and leaves the channel closed. *)
Theorem Stop_best_effort (s : State) :
  arbitrageLoopFinishChan (this s) = chanOpen ->
  exists s' new,
    Stop s = Val None s' /\
    trace s' = trace s ++ new /\
    calls new =
      DestroyArbitrageTradeAlgorithms (exchanges (this s)) ::
      flat_map teardown_calls (contexts_of (mapOrder (ranges s) (exchanges (this s)))) /\
    failures_logged new /\
    arbitrageLoopFinishChan (this s') = chanClosed /\
    exchanges (this s') = exchanges (this s).
Proof.
  intros Hopen. destruct (Stop_run s Hopen) as (new & Hrun & Hc & Hl).
  eexists _, new. split; [exact Hrun|]. auto.
Qed.

(** X2: A second [Stop] panics at the [close] of the channel and does nothing
    else: it never reaches [stopStreaming]. *)
Theorem Stop_twice_panics (s : State) :
  arbitrageLoopFinishChan (this s) = chanOpen ->
  exists s1,
    Stop s = Val None s1 /\
    Stop s1 = Panic CloseOfClosedChannel s1.
Proof.
  intros Hopen. destruct (Stop_run s Hopen) as (new & Hrun & _).
  eexists. split; [exact Hrun|]. reflexivity.
Qed.


(** ** Streaming: what is started and what is torn down *)

Lemma contexts_of_Permutation (o1 o2 : list (string * Exchange)) :
  o1 ≡ₚ o2 -> contexts_of o1 ≡ₚ contexts_of o2.
Proof. intros H. unfold contexts_of. by apply Permutation_flat_map. Qed.

Lemma contexts_of_mapOrder (n n' : nat) (m : gmap string Exchange) :
  contexts_of (mapOrder n m) ≡ₚ contexts_of (mapOrder n' m).
Proof.
  apply contexts_of_Permutation. by rewrite !mapOrder_perm.
Qed.

(** X3: The rollback of [startStreaming] is not limited to what was started:
    when a start fails, the stop and destroy calls of the rollback cover
    every context of every exchange of the registry, the contexts that
    were never started included. *)
Theorem startStreaming_rollback_reaches_all (s s' : State) (err : error) :
  startStreaming s = Val (Some err) s' ->
  exists pre ex tc post evs new,
    contexts_of (mapOrder (ranges s) (exchanges (this s))) = pre ++ (ex, tc) :: post /\
    trace s' = trace s ++ flat_map started pre ++ evs ++ new /\
    Forall (fun ev => is_teardown ev = false) (flat_map started pre ++ evs) /\
    calls new ≡ₚ flat_map teardown_calls (pre ++ (ex, tc) :: post).
Proof.
  intros Hrun. destruct (startStreaming_run s) as [Hok | Hfail].
  - rewrite Hok in Hrun. discriminate.
  - destruct Hfail as (pre & ex & tc & post & err' & evs & msg & new & Hps & Hf & Hs & _ & Hr).
    rewrite Hrun in Hr. injection Hr as _ ->.
    destruct (stopStreaming_run (add_events (flat_map started pre ++ evs) (ranged s)))
      as (new' & Hs' & Hc & _).
    rewrite Hs' in Hs. injection Hs as Hnew. apply app_inv_head in Hnew. subst new'.
    exists pre, ex, tc, post, evs, new. split; [exact Hps|]. split.
    + cbn [add_events ranged trace]. by rewrite <- !app_assoc.
    + split.
      * apply Forall_app. split.
        -- clear. induction pre as [|p pre IH]; simpl; repeat constructor; exact IH.
        -- destruct Hf as [(_ & -> & _) | (_ & _ & -> & _)]; repeat constructor.
      * rewrite Hc, <- Hps. cbn [add_events ranged this ranges].
        apply Permutation_flat_map, contexts_of_mapOrder.
Qed.

(** X4: A successful [Start] followed by [Stop] is balanced: the contexts for
    which trade algorithms were created and streams opened are, up to the
    order of the two walks, the contexts that [Stop] stops and destroys. *)
Theorem Start_Stop_balanced (s s1 : State) :
  arbitrageLoopFinishChan (this s) = chanOpen ->
  Start s = Val None s1 ->
  exists ps1 ps2 s2 new,
    ps1 ≡ₚ ps2 /\
    trace s1 =
      trace s ++ flat_map started ps1 ++
      [EvCall (CreateArbitrageTradeAlgorithms (exchanges (this s))) None] /\
    Stop s1 = Val None s2 /\
    trace s2 = trace s1 ++ new /\
    calls new =
      DestroyArbitrageTradeAlgorithms (exchanges (this s)) :: flat_map teardown_calls ps2.
Proof.
  intros Hopen Hstart. unfold Start, bind in Hstart.
  destruct (startStreaming_run s) as [Hok | Hfail].
  - rewrite Hok in Hstart.
    unfold startArbitrage, bind, getThis, call, goArbitrageLoop, ret in Hstart.
    cbv beta iota zeta in Hstart.
    destruct (respond _ _) as [e|] eqn:Hcreate in Hstart; [discriminate|].
    injection Hstart as <-.
    match goal with
    | |- context [Stop ?st] => destruct (Stop_run st Hopen) as (new & Hstop & Hc & _)
    end.
    eexists _, _, _, new. split; [|split; [|split; [exact Hstop|split; [reflexivity|exact Hc]]]].
    + apply (contexts_of_mapOrder (ranges s) (S (ranges s))).
    + cbn [set_loops add_events ranged trace this]. by rewrite <- app_assoc.
  - destruct Hfail as (? & ? & ? & ? & ? & ? & ? & ? & _ & _ & _ & _ & Hr).
    rewrite Hr in Hstart. discriminate.
Qed.

(** X5: With an empty registry there is nothing to start and nothing to stop:
    both walks make no call. *)
Theorem streaming_of_empty_registry (s : State) :
  exchanges (this s) = ∅ ->
  startStreaming s = Val None (ranged s) /\ stopStreaming s = Val None (ranged s).
Proof.
  intros Hempty.
  assert (Horder : mapOrder (ranges s) (exchanges (this s)) = []).
  { apply Permutation_nil_r. rewrite mapOrder_perm, Hempty. by rewrite map_to_list_empty. }
  unfold startStreaming, stopStreaming, bind, rangeExchanges. rewrite Horder.
  split; reflexivity.
Qed.


(** ** The registry in the steady state *)

Lemma same_setup_refl (s : State) : same_setup s s.
Proof. by repeat split. Qed.

Lemma same_setup_trans (s1 s2 s3 : State) :
  same_setup s1 s2 -> same_setup s2 s3 -> same_setup s1 s3.
Proof.
  intros (Hc & Hg & He) (Hc' & Hg' & He'). repeat split; congruence.
Qed.

Lemma ArbitrageLoop_tick_run (s : State) :
  exists evs,
    ArbitrageLoop_tick s = Val tt (add_events evs s) /\
    calls evs = [UpdateArbitrageTradeAlgorithms (exchanges (this s))] /\
    failures_logged evs.
Proof.
  unfold ArbitrageLoop_tick, bind, getThis, call, logPrintf, emit, ret.
  cbv beta iota zeta.
  destruct (respond (trace s) (UpdateArbitrageTradeAlgorithms (exchanges (this s)))) as [err|];
    rewrite ?add_events_add_events;
    (eexists; split; [reflexivity|]; split; [reflexivity|]; logged_by_cases).
Qed.

Lemma method_same_setup (m : Method) (s s' : State) (r : option error) :
  m <> mInitialize -> method m s = Val r s' -> same_setup s s'.
Proof.
  intros Hm Hrun. destruct m; [contradiction| | | |]; cbn [method] in Hrun.
  - unfold Finalize, bind, getThis, emit, ret, panic in Hrun.
    destruct (gracefulServer (this s)); [|discriminate].
    injection Hrun as _ <-. by repeat split.
  - unfold Start, bind in Hrun. destruct (startStreaming_run s) as [Hok | Hfail].
    + rewrite Hok in Hrun.
      unfold startArbitrage, bind, getThis, call, goArbitrageLoop, ret in Hrun.
      cbv beta iota zeta in Hrun.
      destruct (respond _ _) in Hrun; injection Hrun as _ <-; by repeat split.
    + destruct Hfail as (? & ? & ? & ? & ? & ? & ? & ? & _ & _ & _ & _ & Hr).
      rewrite Hr in Hrun. injection Hrun as _ <-. by repeat split.
  - destruct (arbitrageLoopFinishChan (this s)) eqn:Hchan.
    + destruct (Stop_run s Hchan) as (new & Hstop & _).
      rewrite Hstop in Hrun. injection Hrun as _ <-. by repeat split.
    + unfold Stop, stopArbitrageTrade, close_arbitrageLoopFinishChan, bind, getThis, panic
        in Hrun.
      rewrite Hchan in Hrun. discriminate.
  - destruct (arbitrageLoopFinishChan (this s)) eqn:Hchan.
    + destruct (stopArbitrageTrade_run s Hchan) as (evs & Hstop & _).
      rewrite Hstop in Hrun. injection Hrun as _ <-. by repeat split.
    + unfold stopArbitrageTrade, close_arbitrageLoopFinishChan, bind, getThis, panic in Hrun.
      rewrite Hchan in Hrun. discriminate.
Qed.

Lemma step_same_setup (a : Action) (s s' : State) :
  a <> Caller mInitialize -> step a s = Some s' -> same_setup s s'.
Proof.
  intros Ha Hstep. destruct a as [g|g|g|m]; cbn [step] in Hstep.
  - destruct (loops s !! g) as [[[|]|]|]; try discriminate.
    injection Hstep as <-. by repeat split.
  - destruct (loops s !! g) as [[?|]|]; try discriminate.
    destruct (arbitrageLoopFinishChan (this s)); try discriminate.
    injection Hstep as <-. by repeat split.
  - destruct (loops s !! g) as [[[|]|]|]; try discriminate.
    destruct (ArbitrageLoop_tick_run s) as (evs & Htick & _).
    rewrite Htick in Hstep. injection Hstep as <-. by repeat split.
  - destruct (method m s) as [r s1|] eqn:Hm; [|discriminate].
    injection Hstep as <-. apply (method_same_setup m s s1 r); [congruence|exact Hm].
Qed.

(** X6: After [Initialize], nothing changes the registry of exchanges, the
    server handle or the configuration: no step of the caller other than
    [Initialize], and no step of a goroutine of the loop. *)
Theorem registry_fixed_after_Initialize (acts : list Action) (s s' : State) :
  Forall (fun a => a <> Caller mInitialize) acts ->
  run acts s = Some s' ->
  same_setup s s'.
Proof.
  revert s. induction acts as [|a acts IH]; intros s Hacts Hrun.
  - injection Hrun as <-. apply same_setup_refl.
  - apply Forall_cons in Hacts as [Ha Hacts]. cbn [run] in Hrun.
    destruct (step a s) as [s1|] eqn:Hstep; [|discriminate].
    apply (same_setup_trans s s1 s').
    + by apply (step_same_setup a).
    + by apply IH.
Qed.


(** ** The arbitrage loop while it runs *)

Lemma Returned_after_insert (pcs : list LoopPc) (g g' : nat) (tick tick' : bool) :
  pcs !! g = Some (AtSelect tick) ->
  <[g := AtSelect tick']> pcs !! g' = Some Returned -> pcs !! g' = Some Returned.
Proof.
  intros Hg Hg'. destruct (decide (g' = g)) as [->|Hne].
  - rewrite list_lookup_insert_eq in Hg' by (by apply lookup_lt_Some in Hg).
    discriminate.
  - by rewrite list_lookup_insert_ne in Hg'.
Qed.

(** X7: As long as the channel is open and the caller does nothing, no
    goroutine of the loop returns, and the loop calls the update of the
    arbitrage algorithms exactly once for each tick it takes, always on
    the registry; an update that fails is logged and the loop goes on. *)
Theorem ArbitrageLoop_while_open (acts : list Action) (s s' : State) :
  arbitrageLoopFinishChan (this s) = chanOpen ->
  Forall (fun a => is_caller a = false) acts ->
  run acts s = Some s' ->
  this s' = this s /\
  (exists new,
      trace s' = trace s ++ new /\
      calls new = repeat (UpdateArbitrageTradeAlgorithms (exchanges (this s))) (ticks acts) /\
      failures_logged new) /\
  length (loops s') = length (loops s) /\
  (forall g, loops s' !! g = Some Returned -> loops s !! g = Some Returned).
Proof.
  revert s. induction acts as [|a acts IH]; intros s Hopen Hacts Hrun.
  - injection Hrun as <-. split; [reflexivity|]. split; [|auto].
    exists []. rewrite app_nil_r. auto using failures_logged_nil.
  - apply Forall_cons in Hacts as [Ha Hacts]. cbn [run] in Hrun.
    destruct a as [g|g|g|m]; try discriminate Ha; cbn [step] in Hrun.
    + destruct (loops s !! g) as [[[|]|]|] eqn:Hg; try discriminate Hrun.
      match type of Hrun with
      | run _ ?st = _ => destruct (IH st Hopen Hacts Hrun) as (Hthis & Hnew & Hlen & Hret)
      end.
      split; [exact Hthis|]. split; [exact Hnew|]. cbn [set_loops loops] in Hlen, Hret.
      split; [by rewrite Hlen, length_insert|].
      intros g' Hg'. exact (Returned_after_insert _ _ _ _ _ Hg (Hret g' Hg')).
    + destruct (loops s !! g) as [[?|]|]; try discriminate Hrun.
      rewrite Hopen in Hrun. discriminate.
    + destruct (loops s !! g) as [[[|]|]|] eqn:Hg; try discriminate Hrun.
      destruct (ArbitrageLoop_tick_run s) as (evs & Htick & Hc & Hl).
      rewrite Htick in Hrun.
      match type of Hrun with
      | run _ ?st = _ =>
          destruct (IH st Hopen Hacts Hrun) as (Hthis & (new & Htr & Hcn & Hln) & Hlen & Hret)
      end.
      split; [exact Hthis|]. cbn [set_loops add_events loops trace this] in *.
      split.
      * exists (evs ++ new). split; [by rewrite Htr, app_assoc|].
        split; [|by apply failures_logged_app].
        rewrite calls_app, Hc, Hcn. reflexivity.
      * split; [by rewrite Hlen, length_insert|].
        intros g' Hg'. exact (Returned_after_insert _ _ _ _ _ Hg (Hret g' Hg')).
Qed.

(** ** The arbitrage loop after the cancellation *)

Lemma drain_from (pre pcs : list LoopPc) (s : State) :
  arbitrageLoopFinishChan (this s) = chanClosed ->
  loops s = pre ++ pcs ->
  Forall (fun pc => pc = Returned) pre ->
  exists acts s',
    Forall (fun a => is_select a = true) acts /\
    run acts s = Some s' /\
    Forall (fun pc => pc = Returned) (loops s') /\
    trace s' = trace s /\ this s' = this s.
Proof.
  revert pre s. induction pcs as [|pc pcs IH]; intros pre s Hclosed Hloops Hpre.
  - exists [], s. rewrite app_nil_r in Hloops. rewrite Hloops. auto.
  - destruct pc as [tick|].
    + set (s1 := set_loops (pre ++ Returned :: pcs) s).
      assert (Hstep : step (TakeFinish (length pre)) s = Some s1).
      { cbn [step]. rewrite Hloops, list_lookup_middle by reflexivity. rewrite Hclosed.
        unfold s1. do 2 f_equal.
        rewrite insert_app_r_alt by lia. by rewrite Nat.sub_diag. }
      destruct (IH (pre ++ [Returned]) s1) as (acts & s' & Hacts & Hrun & Hall & Htr & Hthis).
      * exact Hclosed.
      * unfold s1. cbn [set_loops loops]. by rewrite <- app_assoc.
      * apply Forall_app. split; [exact Hpre|by constructor].
      * exists (TakeFinish (length pre) :: acts), s'.
        split; [by constructor|]. cbn [run]. rewrite Hstep. auto.
    + apply (IH (pre ++ [Returned]) s Hclosed).
      * by rewrite <- app_assoc.
      * apply Forall_app. split; [exact Hpre|by constructor].
Qed.

(** X8: One [close] reaches every goroutine of the loop: once the channel is
    closed there is a schedule, made of steps of the goroutines only, after
    which each of them has returned, and on which no update is called. *)
Theorem ArbitrageLoop_drains_after_close (s : State) :
  arbitrageLoopFinishChan (this s) = chanClosed ->
  exists acts s',
    Forall (fun a => is_select a = true) acts /\
    run acts s = Some s' /\
    Forall (fun pc => pc = Returned) (loops s') /\
    trace s' = trace s /\ this s' = this s.
Proof.
  intros Hclosed. apply (drain_from [] (loops s) s Hclosed); [reflexivity|constructor].
Qed.


(** ** Initialize: which exchanges are constructed *)

Lemma construction_justified_mono
    (registered registered' : list (string * option ExchangeNewFunc))
    (fields fields' : list StructField) (cfg : Config) (evs : list Event) :
  (forall e, e ∈ registered -> e ∈ registered') ->
  (forall f, f ∈ fields -> f ∈ fields') ->
  Forall (construction_justified registered fields cfg) evs ->
  Forall (construction_justified registered' fields' cfg) evs.
Proof.
  intros Hr Hf H. eapply Forall_impl; [exact H|].
  intros [| name conf r | | |]; simpl; auto.
  intros (v & new & f' & Hv & Hreg & Hf' & Htag & Hconf).
  exists v, new, f'. repeat split; auto.
Qed.

Lemma construction_justified_fields (registered : list (string * option ExchangeNewFunc))
    (f : StructField) (fields : list StructField) (cfg : Config) (evs : list Event) :
  Forall (construction_justified registered fields cfg) evs ->
  Forall (construction_justified registered (f :: fields) cfg) evs.
Proof.
  apply construction_justified_mono; [auto|]. intros f'. apply list_elem_of_further.
Qed.

Lemma constructed_from_app_l (name : string) (conf : ExchangeConf) (a b : list Event) :
  constructed_from name conf a -> constructed_from name conf (a ++ b).
Proof. intros (ex & H1 & H2). exists ex. split; apply elem_of_app; auto. Qed.

Lemma constructed_from_app_r (name : string) (conf : ExchangeConf) (a b : list Event) :
  constructed_from name conf b -> constructed_from name conf (a ++ b).
Proof. intros (ex & H1 & H2). exists ex. split; apply elem_of_app; auto. Qed.

(** One turn of the loop over the fields, case by case. *)
Lemma Initialize_fields_cons (name : string) (exchangeNewFunc : option ExchangeNewFunc)
    (f : StructField) (rest : list StructField) (s : State) :
  Initialize_fields name exchangeNewFunc (f :: rest) s =
    if String.eqb (Tag_config f) name then
      match Exchanges (config (this s)) with
      | None => Initialize_fields name exchangeNewFunc rest s
      | Some v =>
          match v !! Name f with
          | None => Initialize_fields name exchangeNewFunc rest s
          | Some conf =>
              match exchangeNewFunc with
              | None => Initialize_fields name exchangeNewFunc rest s
              | Some new =>
                  let log := EvLog (name +:+ " exchange create") in
                  match new conf (trace s ++ [log]) with
                  | inl ex =>
                      Initialize_fields name exchangeNewFunc rest
                        (after_new [log; EvNewExchange name conf (inl ex); EvInitialize ex] s)
                  | inr err =>
                      match gracefulServer (this s) with
                      | Some gs =>
                          Val (Some (Wrap err ("can not create exchange of " +:+ name)))
                              (after_new [log; EvNewExchange name conf (inr err);
                                          EvBlockingClose (server_Addr gs)] s)
                      | None =>
                          Panic NilDereference
                                (after_new [log; EvNewExchange name conf (inr err)] s)
                      end
                  end
              end
          end
      end
    else Initialize_fields name exchangeNewFunc rest s.
Proof.
  cbn [Initialize_fields].
  destruct (String.eqb (Tag_config f) name); cbn [negb]; [|reflexivity].
  unfold bind at 1. unfold getThis at 1. cbv beta iota zeta.
  destruct (Exchanges (config (this s))) as [v|]; [|reflexivity].
  destruct (v !! Name f) as [conf|]; [|reflexivity].
  destruct exchangeNewFunc as [new|]; [|reflexivity].
  unfold bind, logPrintf, emit, modifyThis, ret. cbv beta iota zeta.
  cbn [add_events trace].
  destruct (new conf (trace s ++ [EvLog (name +:+ " exchange create")])) as [ex|err].
  - f_equal. destruct s as [[] ? ? ?].
    unfold after_new, add_events, set_this, set_exchanges. simpl. by rewrite <- !app_assoc.
  - unfold Finalize, bind, getThis, emit, ret, panic. cbv beta iota zeta.
    cbn [add_events this].
    destruct (gracefulServer (this s)) as [gs|]; f_equal;
      destruct s as [[] ? ? ?]; unfold after_new, add_events, set_exchanges; simpl;
      by rewrite <- !app_assoc.
Qed.

(** What a walk over the fields, for one registered name, leaves. *)
Lemma Initialize_fields_post (name : string) (exchangeNewFunc : option ExchangeNewFunc)
    (fields : list StructField) (s : State) :
  exists new,
    final (Initialize_fields name exchangeNewFunc fields s) = after_new new s /\
    Forall (construction_justified [(name, exchangeNewFunc)] fields (config (this s))) new /\
    (forall s', Initialize_fields name exchangeNewFunc fields s = Val None s' ->
       forall f conf v newf,
         f ∈ fields -> Tag_config f = name -> Exchanges (config (this s)) = Some v ->
         v !! Name f = Some conf -> exchangeNewFunc = Some newf ->
         constructed_from name conf new).
Proof.
  revert s. induction fields as [|f rest IH]; intros s.
  - exists []. rewrite after_new_nil. split; [reflexivity|]. split; [constructor|].
    intros s' _ f conf v newf Hf. by apply elem_of_nil in Hf.
  - assert (Hskip :
      Initialize_fields name exchangeNewFunc (f :: rest) s =
        Initialize_fields name exchangeNewFunc rest s ->
      (forall conf v newf, Tag_config f = name -> Exchanges (config (this s)) = Some v ->
         v !! Name f = Some conf -> exchangeNewFunc = Some newf -> False) ->
      exists new,
        final (Initialize_fields name exchangeNewFunc (f :: rest) s) = after_new new s /\
        Forall (construction_justified [(name, exchangeNewFunc)] (f :: rest)
                  (config (this s))) new /\
        (forall s', Initialize_fields name exchangeNewFunc (f :: rest) s = Val None s' ->
           forall f' conf v newf,
             f' ∈ f :: rest -> Tag_config f' = name ->
             Exchanges (config (this s)) = Some v ->
             v !! Name f' = Some conf -> exchangeNewFunc = Some newf ->
             constructed_from name conf new)).
    { intros Heq Hnot. rewrite Heq.
      destruct (IH s) as (new & Hfin & Hj & Hall).
      exists new. split; [exact Hfin|]. split; [by apply construction_justified_fields|].
      intros s' Hrun f' conf v newf Hf' Htag Hv Hconf Hnf.
      apply elem_of_cons in Hf' as [-> | Hf'].
      - exfalso. exact (Hnot conf v newf Htag Hv Hconf Hnf).
      - exact (Hall s' Hrun f' conf v newf Hf' Htag Hv Hconf Hnf). }
    pose proof (Initialize_fields_cons name exchangeNewFunc f rest s) as Hcons.
    destruct (String.eqb (Tag_config f) name) eqn:Htag.
    2:{ apply Hskip; [exact Hcons|]. intros ? ? ? Ht. apply String.eqb_neq in Htag. auto. }
    destruct (Exchanges (config (this s))) as [v|] eqn:Hv.
    2:{ apply Hskip; [exact Hcons|]. intros ? ? ? _ [=]. }
    destruct (v !! Name f) as [conf|] eqn:Hconf.
    2:{ apply Hskip; [exact Hcons|]. intros ? ? ? _ [= <-] Hc. congruence. }
    destruct exchangeNewFunc as [new|].
    2:{ apply Hskip; [exact Hcons|]. intros ? ? ? _ _ _ [=]. }
    clear Hskip. apply String.eqb_eq in Htag. cbv zeta in Hcons. rewrite Hcons. clear Hcons.
    assert (Hjust : forall r,
      construction_justified [(name, Some new)] (f :: rest) (config (this s))
        (EvNewExchange name conf r)).
    { intros r. simpl. exists v, new, f. repeat split; auto; apply list_elem_of_here. }
    destruct (new conf (trace s ++ [EvLog (name +:+ " exchange create")])) as [ex|err].
    + set (evs := [EvLog (name +:+ " exchange create"); EvNewExchange name conf (inl ex);
                   EvInitialize ex]).
      destruct (IH (after_new evs s)) as (new' & Hfin & Hj & Hall).
      exists (evs ++ new'). rewrite <- after_new_after_new.
      split; [exact Hfin|]. split.
      * apply Forall_app. split.
        -- repeat constructor. apply Hjust.
        -- apply construction_justified_fields. exact Hj.
      * intros s' Hrun f' conf' v' newf Hf' Htag' Hv' Hconf' Hnf.
        injection Hv' as <-.
        apply elem_of_cons in Hf' as [-> | Hf'].
        -- apply constructed_from_app_l. rewrite Hconf in Hconf'. injection Hconf' as <-.
           exists ex. split; unfold evs.
           ++ apply list_elem_of_further, list_elem_of_here.
           ++ do 2 apply list_elem_of_further. apply list_elem_of_here.
        -- apply constructed_from_app_r.
           exact (Hall s' Hrun f' conf' v newf Hf' Htag' Hv Hconf' Hnf).
    + destruct (gracefulServer (this s)) as [gs|]; eexists; (split; [reflexivity|]);
        (split; [|intros s' [=]]); repeat constructor; apply Hjust.
Qed.


Lemma Initialize_registered_post (registered : list (string * option ExchangeNewFunc))
    (s : State) :
  exists new,
    final (Initialize_registered registered s) = after_new new s /\
    Forall (construction_justified registered exchangesConfigFields (config (this s))) new /\
    (forall s', Initialize_registered registered s = Val None s' ->
       forall name newf f conf v,
         (name, Some newf) ∈ registered -> f ∈ exchangesConfigFields ->
         Tag_config f = name -> Exchanges (config (this s)) = Some v ->
         v !! Name f = Some conf ->
         constructed_from name conf new).
Proof.
  revert s. induction registered as [|[name nf] rest IH]; intros s.
  - exists []. rewrite after_new_nil. split; [reflexivity|]. split; [constructor|].
    intros s' _ ? ? ? ? ? Hin. by apply elem_of_nil in Hin.
  - cbn [Initialize_registered]. unfold bind.
    destruct (Initialize_fields_post name nf exchangesConfigFields s) as (new & Hfin & Hj & Hall).
    assert (Hj' : Forall (construction_justified ((name, nf) :: rest) exchangesConfigFields
                            (config (this s))) new).
    { revert Hj. apply construction_justified_mono; [|auto].
      intros e He. apply list_elem_of_singleton in He as ->. apply list_elem_of_here. }
    destruct (Initialize_fields name nf exchangesConfigFields s) as [[err|] s1|p s1] eqn:Hrun;
      cbn [final] in Hfin; subst s1.
    + exists new. split; [reflexivity|]. split; [exact Hj'|]. intros s' [=].
    + destruct (IH (after_new new s)) as (new' & Hfin' & Hj2 & Hall').
      exists (new ++ new'). rewrite <- after_new_after_new.
      split; [exact Hfin'|]. split.
      * apply Forall_app. split; [exact Hj'|].
        revert Hj2. apply construction_justified_mono; [|auto].
        intros e. apply list_elem_of_further.
      * intros s' Hrun' name' newf f conf v Hin Hf Htag Hv Hconf.
        apply elem_of_cons in Hin as [[= -> <-] | Hin].
        -- apply constructed_from_app_l.
           exact (Hall _ eq_refl f conf v newf Hf Htag Hv Hconf eq_refl).
        -- apply constructed_from_app_r.
           exact (Hall' s' Hrun' name' newf f conf v Hin Hf Htag Hv Hconf).
    + exists new. split; [reflexivity|]. split; [exact Hj'|]. intros s' [=].
Qed.

Lemma Initialize_without_Server (s : State) :
  Server (config (this s)) = None -> Initialize s = Panic NilDereference s.
Proof.
  intros Hsc. unfold Initialize, initHttpServer, bind, getThis, panic.
  cbv beta iota zeta. by rewrite Hsc.
Qed.

(** X9: [Initialize] calls a constructor only for a name under which a
    constructor is registered, and only with the configuration that a field
    tagged with that name holds in the [Exchanges] document: exchanges
    whose configuration is absent are never constructed.  This holds up to
    the point where [Initialize] returns or panics. *)
Theorem Initialize_constructs_only_configured (s : State) :
  exists new,
    trace (final (Initialize s)) = trace s ++ new /\
    Forall (construction_justified GetRegisterdExchanges exchangesConfigFields
              (config (this s))) new.
Proof.
  destruct (Server (config (this s))) as [sc|] eqn:Hsc.
  - rewrite (Initialize_run s sc Hsc).
    destruct (decide (AddrPort sc = "")).
    + destruct (Initialize_registered_post GetRegisterdExchanges s) as (new & -> & Hj & _).
      exists new. split; [reflexivity|exact Hj].
    + destruct (Initialize_registered_post GetRegisterdExchanges
                  (serving (AddrPort sc) (respond (trace s) (ListenAndServe (AddrPort sc))) s))
        as (new & -> & Hj & _).
      eexists (_ :: new). split.
      * cbn [after_new serving add_events set_this trace]. by rewrite <- app_assoc.
      * constructor; [exact I|exact Hj].
  - exists []. rewrite app_nil_r. split; [|constructor].
    by rewrite (Initialize_without_Server s Hsc).
Qed.

Lemma constructed_lookup_mono (evs : list Event) (m : gmap string Exchange) (name : string) :
  is_Some (m !! name) -> is_Some (constructed evs m !! name).
Proof.
  revert m. induction evs as [|ev evs IH]; intros m Hm; [exact Hm|].
  cbn [constructed foldl]. apply IH.
  destruct ev as [| n conf [ex|err] | | |]; try exact Hm.
  destruct (decide (n = name)) as [->|Hne].
  - rewrite lookup_insert_eq. by eexists.
  - by rewrite lookup_insert_ne.
Qed.

Lemma constructed_lookup (evs : list Event) (m : gmap string Exchange) (name : string)
    (conf : ExchangeConf) (ex : Exchange) :
  EvNewExchange name conf (inl ex) ∈ evs -> is_Some (constructed evs m !! name).
Proof.
  revert m. induction evs as [|ev evs IH]; intros m Hin.
  - by apply elem_of_nil in Hin.
  - apply elem_of_cons in Hin as [<- | Hin].
    + cbn [constructed foldl]. apply constructed_lookup_mono.
      rewrite lookup_insert_eq. by eexists.
    + cbn [constructed foldl]. by apply IH.
Qed.

(** X10: When [Initialize] returns nil, every exchange that has a registered
    constructor and a configuration under a field tagged with its name has
    been constructed from that configuration and initialized, and the
    registry holds an exchange under its name. *)
Theorem Initialize_registers_configured (s s' : State) :
  Initialize s = Val None s' ->
  exists new,
    trace s' = trace s ++ new /\
    exchanges (this s') = constructed new (exchanges (this s)) /\
    (forall name newf f conf v,
        (name, Some newf) ∈ GetRegisterdExchanges -> f ∈ exchangesConfigFields ->
        Tag_config f = name -> Exchanges (config (this s)) = Some v ->
        v !! Name f = Some conf ->
        constructed_from name conf new /\ is_Some (exchanges (this s') !! name)).
Proof.
  intros Hrun.
  destruct (Server (config (this s))) as [sc|] eqn:Hsc.
  2:{ rewrite (Initialize_without_Server s Hsc) in Hrun. discriminate. }
  rewrite (Initialize_run s sc Hsc) in Hrun.
  assert (Hgen : forall s0, Initialize_registered GetRegisterdExchanges s0 = Val None s' ->
    exists new, s' = after_new new s0 /\
      (forall name newf f conf v,
          (name, Some newf) ∈ GetRegisterdExchanges -> f ∈ exchangesConfigFields ->
          Tag_config f = name -> Exchanges (config (this s0)) = Some v ->
          v !! Name f = Some conf ->
          constructed_from name conf new /\
          is_Some (constructed new (exchanges (this s0)) !! name))).
  { intros s0 Hrun0.
    destruct (Initialize_registered_post GetRegisterdExchanges s0) as (new & Hfin & _ & Hall).
    rewrite Hrun0 in Hfin. cbn [final] in Hfin.
    exists new. split; [exact Hfin|].
    intros name newf f conf v Hin Hf Htag Hv Hconf.
    pose proof (Hall s' Hrun0 name newf f conf v Hin Hf Htag Hv Hconf) as Hc.
    split; [exact Hc|]. destruct Hc as (ex & Hex & _). by eapply constructed_lookup. }
  destruct (decide (AddrPort sc = "")).
  - destruct (Hgen s Hrun) as (new & -> & Hall).
    exists new. split; [reflexivity|]. split; [reflexivity|exact Hall].
  - destruct (Hgen _ Hrun) as (new & -> & Hall).
    eexists (_ :: new). split; [|split].
    + cbn [after_new serving add_events set_this trace]. by rewrite <- app_assoc.
    + reflexivity.
    + intros name newf f conf v Hin Hf Htag Hv Hconf.
      destruct (Hall name newf f conf v Hin Hf Htag Hv Hconf) as [(ex & H1 & H2) Hsome].
      split; [|exact Hsome].
      exists ex. split; by apply list_elem_of_further.
Qed.


(** ** Initialize without a server *)

Lemma Initialize_fields_no_server (name : string) (exchangeNewFunc : option ExchangeNewFunc)
    (fields : list StructField) (s : State) :
  gracefulServer (this s) = None ->
  match Initialize_fields name exchangeNewFunc fields s with
  | Val r s' => r = None /\ gracefulServer (this s') = None
  | Panic p _ => p = NilDereference
  end.
Proof.
  revert s. induction fields as [|f rest IH]; intros s Hgs.
  - split; [reflexivity|exact Hgs].
  - rewrite Initialize_fields_cons.
    destruct (String.eqb (Tag_config f) name); [|by apply IH].
    destruct (Exchanges (config (this s))) as [v|]; [|by apply IH].
    destruct (v !! Name f) as [conf|]; [|by apply IH].
    destruct exchangeNewFunc as [new|]; [|by apply IH].
    cbv zeta.
    destruct (new conf _) as [ex|err].
    + apply IH. exact Hgs.
    + by rewrite Hgs.
Qed.

Lemma Initialize_registered_no_server (registered : list (string * option ExchangeNewFunc))
    (s : State) :
  gracefulServer (this s) = None ->
  match Initialize_registered registered s with
  | Val r s' => r = None /\ gracefulServer (this s') = None
  | Panic p _ => p = NilDereference
  end.
Proof.
  revert s. induction registered as [|[name nf] rest IH]; intros s Hgs.
  - split; [reflexivity|exact Hgs].
  - cbn [Initialize_registered]. unfold bind.
    pose proof (Initialize_fields_no_server name nf exchangesConfigFields s Hgs) as Hf.
    destruct (Initialize_fields name nf exchangesConfigFields s) as [r s1|p s1].
    + destruct Hf as [-> Hgs1]. by apply IH.
    + exact Hf.
Qed.

(** X12: With an empty server address, on a receiver that has no server,
    [Initialize] never returns an error: it returns nil, or it panics on
    the nil server when a constructor fails; and after it returned,
    [Finalize] panics on the nil server. *)
Theorem Initialize_without_address (s : State) (sc : serverConfig) :
  Server (config (this s)) = Some sc ->
  AddrPort sc = "" ->
  gracefulServer (this s) = None ->
  match Initialize s with
  | Val r s' => r = None /\ Finalize s' = Panic NilDereference s'
  | Panic p _ => p = NilDereference
  end.
Proof.
  intros Hsc Haddr Hgs. rewrite (Initialize_run s sc Hsc).
  destruct (decide (AddrPort sc = "")) as [_|Hne]; [|contradiction].
  pose proof (Initialize_registered_no_server GetRegisterdExchanges s Hgs) as H.
  destruct (Initialize_registered GetRegisterdExchanges s) as [r s'|p s']; [|exact H].
  destruct H as [-> Hgs']. split; [reflexivity|].
  unfold Finalize, bind, getThis, panic. by rewrite Hgs'.
Qed.

(** X13: On the receiver that [NewIntegrator] returns, before any [Initialize],
    [Finalize] panics; [NewIntegrator] has then built the notifier and the
    robot, in this order, and nothing else. *)
Theorem NewIntegrator_then_Finalize (c : Config) (configDir : string) (h h' : list Event)
    (i : Integrator) :
  NewIntegrator c configDir h = (inl i, h') ->
  h' = h ++ [EvCall NewNotifier None; EvCall (NewRobot configDir) None] /\
  exchanges i = ∅ /\
  Finalize (process i h') = Panic NilDereference (process i h').
Proof.
  unfold NewIntegrator. cbv zeta.
  destruct (respond h NewNotifier); [discriminate|].
  destruct (respond _ (NewRobot configDir)); [discriminate|].
  intros [= <- <-]. rewrite <- app_assoc. auto.
Qed.

End Lifecycle.

(** * The model at work: runs of the demonstration process *)

Section Runs.

Import Demo.

#[local] Existing Instance api.

(** ** Where the code departs from its description *)


(** C2: the address is configured and the server fails to bind;
    [initHttpServer] returns the error, and [Initialize] goes on: it
    constructs both exchanges and returns nil. *)
Lemma Initialize_ignores_server_failure :
  let s := fresh (cfg listening (Some bothConfigured)) in
  let bind_error := errorString "bind: address already in use" in
  (exists s1,
      initHttpServer (Env := env bindFails bothOk) s =
        Val (Some (Wrap bind_error "can not start http server (:8080)")) s1) /\
  (exists s',
      Initialize (Env := env bindFails bothOk) s = Val None s' /\
      trace s' =
        [EvCall (ListenAndServe ":8080") (Some bind_error);
         EvLog "bitflyer exchange create";
         EvNewExchange "bitflyer" "key-b" (inl "bitflyer");
         EvInitialize "bitflyer";
         EvLog "zaif exchange create";
         EvNewExchange "zaif" "key-z" (inl "zaif");
         EvInitialize "zaif"] /\
      exchanges (this s') = <["zaif" := "zaif"]> (<["bitflyer" := "bitflyer"]> ∅)).
Proof.
  split; eexists; [vm_compute; reflexivity|].
  split; [vm_compute; reflexivity|]. split; vm_compute; reflexivity.
Qed.

(** C3: with an empty address [Initialize] succeeds and binds nothing,
    and leaves [gracefulServer] nil; [Finalize] then dereferences it and
    panics. *)
Lemma Finalize_without_server_panics :
  match Initialize (Env := env quiet bothOk) (fresh (cfg noAddress (Some bothConfigured))) with
  | Val r s =>
      r = None /\
      Forall (fun ev => match ev with EvCall (ListenAndServe _) _ => False | _ => True end)
             (trace s) /\
      gracefulServer (this s) = None /\
      Finalize s = Panic NilDereference s
  | Panic _ _ => False
  end.
Proof. vm_compute. repeat split; repeat constructor. Qed.


(** C8: the loop is started and its tick fires; [stopArbitrageTrade] then
    closes the channel, destroys the algorithms and returns.  Both cases
    of the [select] can now proceed, and taking the tick case updates the
    arbitrage algorithms after [stopArbitrageTrade] has returned. *)
Lemma update_after_stopArbitrageTrade :
  match run (Env := env quiet bothOk)
            [Caller mStart; TimerFires 0; Caller mStopArbitrageTrade] connected with
  | Some s =>
      arbitrageLoopFinishChan (this s) = chanClosed /\
      is_Some (step (Env := env quiet bothOk) (TakeFinish 0) s) /\
      exists s',
        step (Env := env quiet bothOk) (TakeTick 0) s = Some s' /\
        trace s' = trace s ++ [EvCall (UpdateArbitrageTradeAlgorithms (exchanges (this s))) None]
  | None => False
  end.
Proof.
  vm_compute. split; [reflexivity|]. split; [eexists; reflexivity|].
  eexists. split; reflexivity.
Qed.

(** C10: a configuration without [Server] section and without
    [Exchanges]: [Initialize] panics in [initHttpServer]. *)
Lemma Initialize_nil_Server_panics :
  Exchanges (config (this (fresh (cfg None None)))) = None /\
  Initialize (Env := env quiet bothOk) (fresh (cfg None None)) =
    Panic NilDereference (fresh (cfg None None)).
Proof. split; reflexivity. Qed.

(** ** The theorems on the demonstration process *)

(** The second context of [bitflyer] cannot be opened: [Start] gives the
    error wrapped twice, after stopping and destroying all three contexts;
    no goroutine is launched. *)
Example Start_rolls_back_when_open_fails :
  exists s',
    Start (Env := env (openFails 2) bothOk) connected =
      Val (Some (Wrap (Wrap (errorString "stream refused")
                            "can not start streaming (name = bitflyer)")
                      "can not start streaming")) s' /\
    calls (trace s') =
      [CreateTradeAlgorithms 3 3; StartStreaming "zaif" 3;
       CreateTradeAlgorithms 1 1; StartStreaming "bitflyer" 1;
       CreateTradeAlgorithms 2 2; StartStreaming "bitflyer" 2;
       StopStreaming "zaif" 3; DestroyTradeAlgorithms 3 3;
       StopStreaming "bitflyer" 1; DestroyTradeAlgorithms 1 1;
       StopStreaming "bitflyer" 2; DestroyTradeAlgorithms 2 2] /\
    loops s' = [].
Proof. eexists. split; [vm_compute; reflexivity|]. split; vm_compute; reflexivity. Qed.

(** The arbitrage algorithms cannot be created: the streams stay open. *)
Example Start_leaves_streaming_when_arbitrage_fails :
  exists s',
    Start (Env := env arbitrageFails bothOk) connected =
      Val (Some (Wrap (Wrap (errorString "no algorithm") "can not create arbitrage algorithm")
                      "can not start arbitarage")) s' /\
    calls (trace s') =
      [CreateTradeAlgorithms 3 3; StartStreaming "zaif" 3;
       CreateTradeAlgorithms 1 1; StartStreaming "bitflyer" 1;
       CreateTradeAlgorithms 2 2; StartStreaming "bitflyer" 2;
       CreateArbitrageTradeAlgorithms (exchanges (this connected))] /\
    loops s' = [].
Proof. eexists. split; [vm_compute; reflexivity|]. split; vm_compute; reflexivity. Qed.

(** The trade algorithms fail on an update: the callback logs and returns
    nil. *)
Example streamingCallback_logs :
  streamingCallback (Env := env updateFails bothOk) 3 tt connected =
    Val None (add_events [EvCall (UpdateTradeAlgorithms 3 3) (Some (errorString "no price"));
                          EvLog "can not run algorithm (reason = no price)"] connected).
Proof. reflexivity. Qed.




Lemma stopStreaming_best_effort_witness :
  exchanges (this connected) !! "zaif" = Some "zaif" /\
  3 ∈ GetTradeContextCursor "zaif" /\
  exists new,
    stopStreaming (Env := env stopFails bothOk) connected =
      Val None (add_events new (ranged connected)) /\
    StopStreaming "zaif" 3 ∈ calls new /\
    DestroyTradeAlgorithms 3 3 ∈ calls new /\
    failures_logged new.
Proof.
  assert (Hex : exchanges (this connected) !! "zaif" = Some "zaif") by (vm_compute; reflexivity).
  assert (Htc : 3 ∈ GetTradeContextCursor "zaif") by (simpl; apply list_elem_of_here).
  split; [exact Hex|]. split; [exact Htc|].
  destruct (stopStreaming_best_effort (Env := env stopFails bothOk) connected)
    as (new & Hrun & _ & Hall & Hlog).
  exists new. split; [exact Hrun|].
  destruct (Hall "zaif" "zaif" 3 Hex Htc) as [Hstop Hdestroy].
  auto.
Defined.

Lemma ArbitrageLoop_after_cancellation_witness :
  arbitrageLoopFinishChan (this cancelled) = chanClosed /\
  step (Env := env quiet bothOk) (TakeFinish 0) cancelled =
    Some (set_loops [Returned; Returned] cancelled) /\
  step (Env := env quiet bothOk) (TakeTick 0) cancelled = None /\
  step (Env := env quiet bothOk) (TakeTick 1) cancelled = None /\
  (forall s', run (Env := env quiet bothOk) [TakeFinish 0] cancelled = Some s' ->
              trace s' = trace cancelled).
Proof.
  assert (Hclosed : arbitrageLoopFinishChan (this cancelled) = chanClosed) by reflexivity.
  destruct (ArbitrageLoop_after_cancellation (Env := env quiet bothOk) cancelled Hclosed)
    as (Hfinish & Htick & Hreturned & Hrun).
  split; [exact Hclosed|].
  split; [exact (Hfinish 0 false eq_refl)|].
  split; [exact (Htick 0 eq_refl)|].
  split; [exact (proj2 (proj2 (Hreturned 1 eq_refl)))|].
  intros s'. apply Hrun; repeat constructor; discriminate.
Defined.

Lemma Initialize_nil_Exchanges_witness :
  let s := fresh (cfg listening None) in
  let sc := {| Debug := false; AddrPort := ":8080" |} in
  Server (config (this s)) = Some sc /\
  Exchanges (config (this s)) = None /\
  exists s' new,
    Initialize (Env := env quiet bothOk) s = Val None s' /\
    exchanges (this s') = exchanges (this s) /\
    trace s' = trace s ++ new /\
    Forall (fun ev => is_new_exchange ev = false) new.
Proof.
  intros s sc. split; [reflexivity|]. split; [reflexivity|].
  exact (Initialize_nil_Exchanges (Env := env quiet bothOk) s sc eq_refl eq_refl).
Defined.

(** ** The further properties on the demonstration process *)

Lemma Stop_best_effort_witness :
  arbitrageLoopFinishChan (this running) = chanOpen /\
  exists s' new,
    Stop (Env := env stopFails bothOk) running = Val None s' /\
    trace s' = trace running ++ new /\
    calls new =
      DestroyArbitrageTradeAlgorithms (exchanges (this running)) ::
      flat_map teardown_calls
        (contexts_of (@mapOrder api (env stopFails bothOk) 1 (exchanges (this running)))) /\
    failures_logged new /\
    arbitrageLoopFinishChan (this s') = chanClosed /\
    exchanges (this s') = exchanges (this running).
Proof.
  split; [reflexivity|].
  exact (Stop_best_effort (Env := env stopFails bothOk) running eq_refl).
Defined.

Lemma Stop_twice_panics_witness :
  arbitrageLoopFinishChan (this running) = chanOpen /\
  exists s1,
    Stop (Env := env quiet bothOk) running = Val None s1 /\
    Stop (Env := env quiet bothOk) s1 = Panic CloseOfClosedChannel s1.
Proof.
  split; [reflexivity|].
  exact (Stop_twice_panics (Env := env quiet bothOk) running eq_refl).
Defined.

Lemma startStreaming_rollback_reaches_all_witness :
  let E := env (openFails 1) bothOk in
  let err := Wrap (errorString "stream refused") "can not start streaming (name = bitflyer)" in
  let s' := final (startStreaming (Env := E) connected) in
  startStreaming (Env := E) connected = Val (Some err) s' /\
  exists pre ex tc post evs new,
    contexts_of (@mapOrder api E 0 (exchanges (this connected))) = pre ++ (ex, tc) :: post /\
    trace s' = trace connected ++ flat_map started pre ++ evs ++ new /\
    Forall (fun ev => is_teardown ev = false) (flat_map started pre ++ evs) /\
    calls new ≡ₚ flat_map teardown_calls (pre ++ (ex, tc) :: post).
Proof.
  intros E err s'.
  assert (Hrun : startStreaming (Env := E) connected = Val (Some err) s')
    by (vm_compute; reflexivity).
  split; [exact Hrun|].
  exact (startStreaming_rollback_reaches_all (Env := E) connected s' err Hrun).
Defined.

Lemma Start_Stop_balanced_witness :
  let E := env quiet bothOk in
  let s1 := final (Start (Env := E) connected) in
  arbitrageLoopFinishChan (this connected) = chanOpen /\
  Start (Env := E) connected = Val None s1 /\
  exists ps1 ps2 s2 new,
    ps1 ≡ₚ ps2 /\
    trace s1 =
      trace connected ++ flat_map started ps1 ++
      [EvCall (CreateArbitrageTradeAlgorithms (exchanges (this connected))) None] /\
    Stop (Env := E) s1 = Val None s2 /\
    trace s2 = trace s1 ++ new /\
    calls new =
      DestroyArbitrageTradeAlgorithms (exchanges (this connected)) ::
      flat_map teardown_calls ps2.
Proof.
  intros E s1.
  assert (Hrun : Start (Env := E) connected = Val None s1) by (vm_compute; reflexivity).
  split; [reflexivity|]. split; [exact Hrun|].
  exact (Start_Stop_balanced (Env := E) connected s1 eq_refl Hrun).
Defined.

Lemma streaming_of_empty_registry_witness :
  let s := fresh (cfg listening (Some bothConfigured)) in
  exchanges (this s) = ∅ /\
  startStreaming (Env := env (openFails 1) bothOk) s = Val None (ranged s) /\
  stopStreaming (Env := env (openFails 1) bothOk) s = Val None (ranged s).
Proof.
  intros s. split; [reflexivity|].
  exact (streaming_of_empty_registry (Env := env (openFails 1) bothOk) s eq_refl).
Defined.

Lemma registry_fixed_after_Initialize_witness :
  let E := env quiet bothOk in
  let acts := [Caller mStart; TimerFires 0; TakeTick 0; Caller mStop; TakeFinish 0;
               Caller mFinalize] in
  let s' := default connected (run (Env := E) acts connected) in
  Forall (fun a => a <> Caller mInitialize) acts /\
  run (Env := E) acts connected = Some s' /\
  same_setup connected s'.
Proof.
  intros E acts s'.
  assert (Hacts : Forall (fun a => a <> Caller mInitialize) acts)
    by (repeat constructor; discriminate).
  assert (Hrun : run (Env := E) acts connected = Some s') by (vm_compute; reflexivity).
  split; [exact Hacts|]. split; [exact Hrun|].
  exact (registry_fixed_after_Initialize (Env := E) acts connected s' Hacts Hrun).
Defined.

Lemma ArbitrageLoop_while_open_witness :
  let E := env quiet bothOk in
  let acts := [TimerFires 0; TakeTick 0; TimerFires 0; TakeTick 0; TimerFires 0] in
  let s' := default running (run (Env := E) acts running) in
  arbitrageLoopFinishChan (this running) = chanOpen /\
  Forall (fun a => is_caller a = false) acts /\
  run (Env := E) acts running = Some s' /\
  this s' = this running /\
  (exists new,
      trace s' = trace running ++ new /\
      calls new = repeat (UpdateArbitrageTradeAlgorithms (exchanges (this running))) 2 /\
      failures_logged new) /\
  length (loops s') = length (loops running) /\
  (forall g, loops s' !! g = Some Returned -> loops running !! g = Some Returned).
Proof.
  intros E acts s'.
  assert (Hacts : Forall (fun a => is_caller a = false) acts) by (repeat constructor).
  assert (Hrun : run (Env := E) acts running = Some s') by (vm_compute; reflexivity).
  split; [reflexivity|]. split; [exact Hacts|]. split; [exact Hrun|].
  exact (ArbitrageLoop_while_open (Env := E) acts running s' eq_refl Hacts Hrun).
Defined.

Lemma ArbitrageLoop_drains_after_close_witness :
  arbitrageLoopFinishChan (this cancelled) = chanClosed /\
  exists acts s',
    Forall (fun a => is_select a = true) acts /\
    run (Env := env quiet bothOk) acts cancelled = Some s' /\
    Forall (fun pc => pc = Returned) (loops s') /\
    trace s' = trace cancelled /\ this s' = this cancelled.
Proof.
  split; [reflexivity|].
  exact (ArbitrageLoop_drains_after_close (Env := env quiet bothOk) cancelled eq_refl).
Defined.

Lemma Initialize_registers_configured_witness :
  let E := env quiet bothOk in
  let s := fresh (cfg listening (Some bothConfigured)) in
  let s' := final (Initialize (Env := E) s) in
  Initialize (Env := E) s = Val None s' /\
  ("zaif", Some (newOk "zaif")) ∈ bothOk /\
  {| Name := "Zaif"; Tag_config := "zaif" |} ∈ @exchangesConfigFields api E /\
  bothConfigured !! "Zaif" = Some "key-z" /\
  exists new,
    trace s' = trace s ++ new /\
    constructed_from "zaif" "key-z" new /\
    is_Some (exchanges (this s') !! "zaif").
Proof.
  intros E s s'.
  assert (Hrun : Initialize (Env := E) s = Val None s') by (vm_compute; reflexivity).
  assert (Hreg : ("zaif", Some (newOk "zaif")) ∈ bothOk)
    by (apply list_elem_of_further, list_elem_of_here).
  assert (Hf : {| Name := "Zaif"; Tag_config := "zaif" |} ∈ @exchangesConfigFields api E)
    by (apply list_elem_of_further, list_elem_of_here).
  assert (Hconf : bothConfigured !! "Zaif" = Some "key-z") by (vm_compute; reflexivity).
  split; [exact Hrun|]. split; [exact Hreg|]. split; [exact Hf|]. split; [exact Hconf|].
  destruct (Initialize_registers_configured (Env := E) s s' Hrun) as (new & Htr & _ & Hall).
  exists new. split; [exact Htr|].
  exact (Hall "zaif" (newOk "zaif") _ "key-z" bothConfigured Hreg Hf eq_refl eq_refl Hconf).
Defined.


Lemma Initialize_without_address_witness :
  let s := fresh (cfg noAddress (Some bothConfigured)) in
  let sc := {| Debug := false; AddrPort := "" |} in
  Server (config (this s)) = Some sc /\ AddrPort sc = "" /\
  gracefulServer (this s) = None /\
  match Initialize (Env := env quiet zaifFails) s with
  | Val r s' => r = None /\ Finalize s' = Panic NilDereference s'
  | Panic p _ => p = NilDereference
  end.
Proof.
  intros s sc. split; [reflexivity|]. split; [reflexivity|]. split; [reflexivity|].
  exact (Initialize_without_address (Env := env quiet zaifFails) s sc
           eq_refl eq_refl eq_refl).
Defined.

Lemma NewIntegrator_then_Finalize_witness :
  let E := env quiet bothOk in
  let c := cfg listening (Some bothConfigured) in
  let r := NewIntegrator (Env := E) c "conf" [] in
  let i := this (fresh c) in
  r = (inl i, r.2) /\
  r.2 = [EvCall NewNotifier None; EvCall (NewRobot "conf") None] /\
  exchanges i = ∅ /\
  Finalize (process i r.2) = Panic NilDereference (process i r.2).
Proof.
  intros E c r i.
  assert (Hr : r = (inl i, r.2)) by reflexivity.
  split; [exact Hr|].
  exact (NewIntegrator_then_Finalize (Env := E) c "conf" [] r.2 i Hr).
Defined.

End Runs.
